(** * Polymarket stop-loss bot: trigger evaluation, selection filter and
      the chunked sell executor

    A shallow embedding of [polymarket_stop_loss_hybrid_specificPosition.py].

    Conventions of the embedding.
    - Python [float] values (sizes, prices, percentages) are exact rationals
      [Q].  Comparisons, [min] and [max] are exact on floats as well; sums and
      products are idealised (no rounding).
    - Python's [min(a, b)] returns [b] only when [b < a] and [max(a, b)]
      returns [b] only when [b > a]; the Standard Library's [Qmin] and [Qmax]
      make the same choice, also on ties.
    - The CLOB client is an interface ([ClobClient]) over an abstract venue
      state; every call threads that state.  A call that raises is a result
      of its own.
    - [print] and [logging] output is not part of the model, except for the
      trigger reasons, which are returned next to the triggered position.
    - The [while] loop of the executor takes fuel; [None] means that the loop
      is still running when the fuel is spent. *)

From Stdlib Require Import QArith Qminmax Lqa.
From stdpp Require Import gmap strings list.

Local Open Scope Q_scope.
Local Open Scope string_scope.
Local Open Scope list_scope.

(** ** Comparison used by [while remaining_size > 0.1] and friends *)

Definition Qgtb (x y : Q) : bool := negb (Qle_bool x y).

(** ** Configuration *)

Record StopLossConfig := mkStopLossConfig {
  stop_loss_percentage : Q;
  stop_loss_price : option Q;
  check_interval : Z;
  min_position_value : Q;
  dry_run : bool;
  max_slippage : Q;
  selected_positions : gset string;
  selection_mode : string
}.

(** The dataclass defaults, with [__post_init__] replacing [None] by the
    empty set. *)
Definition default_config : StopLossConfig :=
  {| stop_loss_percentage := 20;
     stop_loss_price := None;
     check_interval := 60;
     min_position_value := 0.1;
     dry_run := true;
     max_slippage := 0.05;
     selected_positions := ∅;
     selection_mode := "none" |}.

Definition set_selection_mode (mode : string) (cfg : StopLossConfig) : StopLossConfig :=
  {| stop_loss_percentage := stop_loss_percentage cfg;
     stop_loss_price := stop_loss_price cfg;
     check_interval := check_interval cfg;
     min_position_value := min_position_value cfg;
     dry_run := dry_run cfg;
     max_slippage := max_slippage cfg;
     selected_positions := selected_positions cfg;
     selection_mode := mode |}.

Definition set_selected_positions (sel : gset string) (cfg : StopLossConfig) : StopLossConfig :=
  {| stop_loss_percentage := stop_loss_percentage cfg;
     stop_loss_price := stop_loss_price cfg;
     check_interval := check_interval cfg;
     min_position_value := min_position_value cfg;
     dry_run := dry_run cfg;
     max_slippage := max_slippage cfg;
     selected_positions := sel;
     selection_mode := selection_mode cfg |}.

(** ** Positions *)

Record Position := mkPosition {
  token_id : string;
  market_name : string;
  outcome : string;
  size : Q;
  current_value : Q;
  current_price : Q;
  initial_value : Q;
  pnl : Q;
  pnl_percentage : Q
}.

(** ** Selection filter: [PolymarketStopLossBot.filter_monitored_positions] *)

(** [not self.config.selected_positions]: the set is empty. *)
Definition no_selection (cfg : StopLossConfig) : bool :=
  bool_decide (selected_positions cfg = ∅).

Definition filter_monitored_positions (cfg : StopLossConfig)
    (positions : list Position) : list Position :=
  if bool_decide (selection_mode cfg = "all") then positions
  else if bool_decide (selection_mode cfg = "selected") then
    if no_selection cfg then []
    else filter (λ pos, token_id pos ∈ selected_positions cfg) positions
  else if bool_decide (selection_mode cfg = "none") then []
  else [].

(** ** Trigger evaluation: [PolymarketStopLossBot.check_stop_loss_triggers] *)

Inductive TriggerReason :=
  | LossReason (pnl_pct : Q)
  | PriceReason (price stop : Q).

Definition percentage_triggered (cfg : StopLossConfig) (position : Position) : bool :=
  Qle_bool (pnl_percentage position) (- stop_loss_percentage cfg).

Definition price_triggered (cfg : StopLossConfig) (position : Position) : bool :=
  match stop_loss_price cfg with
  | Some stop => Qle_bool (current_price position) stop
  | None => false
  end.

(** The list [trigger_reason] built inside the [if]. *)
Definition trigger_reason (cfg : StopLossConfig) (position : Position) : list TriggerReason :=
  (if percentage_triggered cfg position
   then [LossReason (pnl_percentage position)] else [])
  ++
  (match stop_loss_price cfg with
   | Some stop =>
       if price_triggered cfg position
       then [PriceReason (current_price position) stop] else []
   | None => []
   end).

(** The decision taken for one monitored position: whether it is appended
    to [triggered_positions], and the reasons that are logged then. *)
Definition evaluate (cfg : StopLossConfig) (position : Position) : bool * list TriggerReason :=
  if percentage_triggered cfg position || price_triggered cfg position
  then (true, trigger_reason cfg position)
  else (false, []).

(** The [for position in monitored_positions] loop; each triggered position
    comes with the reasons of its warning. *)
Fixpoint scan_triggers (cfg : StopLossConfig) (monitored : list Position)
    : list (Position * list TriggerReason) :=
  match monitored with
  | [] => []
  | position :: rest =>
      match evaluate cfg position with
      | (true, reasons) => (position, reasons) :: scan_triggers cfg rest
      | (false, _) => scan_triggers cfg rest
      end
  end.

Definition check_stop_loss_triggers (cfg : StopLossConfig)
    (positions : list Position) : list Position :=
  (scan_triggers cfg (filter_monitored_positions cfg positions)).*1.

(** ** Mode changes outside the filter *)

(** [validate_configuration], with the user address as an argument. *)
Definition validate_configuration (cfg : StopLossConfig) (user_address : string) : bool :=
  if bool_decide (selection_mode cfg = "none") then false
  else if bool_decide (selection_mode cfg = "selected") && no_selection cfg then false
  else if bool_decide (user_address = "") then false
  else true.

(** The configuration with which [start_monitoring] enters its loop. *)
Definition start_monitoring_config (cfg : StopLossConfig) : StopLossConfig :=
  if bool_decide (selection_mode cfg = "selected") && no_selection cfg
  then set_selection_mode "all" cfg
  else cfg.

(** The configuration update of [select_positions_for_monitoring], for the
    selection the interactive dialogue returned. *)
Definition select_positions_for_monitoring (cfg : StopLossConfig)
    (new_selections : gset string) : StopLossConfig :=
  set_selection_mode
    (if bool_decide (new_selections = ∅) then "all" else "selected")
    (set_selected_positions new_selections cfg).

(** ** The CLOB client, as far as the executor uses it *)

Inductive Side := BUY | SELL.
Inductive OrderType := GTC | FOK.

Record OrderArgs := mkOrderArgs {
  order_price : Q;
  order_size : Q;
  order_side : Side;
  order_token_id : string
}.

(** What [get_order_book] gives inside the [try] of strategy 1: an exception
    (also one raised while reading the best bid), or the bid prices in the
    book's order. *)
Inductive OrderBook :=
  | BookError
  | BookBids (bids : list Q).

(** The venue's answer to [post_order]: the entries the executor reads. *)
Record PostResponse := mkPostResponse {
  resp_success : bool;
  resp_orderID : string
}.

(** Every method takes and returns the venue state; [None] is a raised
    exception.  The signed order carries the arguments it was built from. *)
Class ClobClient (V : Type) := {
  get_order_book : V → string → OrderBook * V;
  create_order : V → OrderArgs → option OrderArgs * V;
  post_order : V → OrderArgs → OrderType → option PostResponse * V;
  get_order : V → string → V
}.

(** ** Instrumented venue: the calls made so far *)

Inductive PlaceResult :=
  | CreateRaised
  | PostRaised
  | Responded (result : PostResponse).

Record World (V : Type) := mkWorld {
  venue : V;
  calls : list (OrderArgs * PlaceResult)
}.
Arguments mkWorld {V} _ _.
Arguments venue {V} _.
Arguments calls {V} _.

Definition is_accepted (r : PlaceResult) : bool :=
  match r with
  | Responded result => resp_success result
  | _ => false
  end.

(** The responses of the accepted calls, and the size they add up to. *)
Fixpoint accepted_results (log : list (OrderArgs * PlaceResult)) : list PostResponse :=
  match log with
  | [] => []
  | (_, Responded result) :: rest =>
      if resp_success result then result :: accepted_results rest
      else accepted_results rest
  | _ :: rest => accepted_results rest
  end.

Fixpoint accepted_size (log : list (OrderArgs * PlaceResult)) : Q :=
  match log with
  | [] => 0
  | (args, r) :: rest =>
      if is_accepted r then order_size args + accepted_size rest
      else accepted_size rest
  end.

(** Result of a call that either raises or returns. *)
Inductive Completion (A : Type) :=
  | Raised
  | Returned (a : A).
Arguments Raised {A}.
Arguments Returned {A} _.

(** The dictionaries [execute_market_sell] returns. *)
Inductive ExecutionResult :=
  | ExecSuccess (orders_placed_count : nat) (total_size_ordered : Q)
      (result_remaining_size : Q) (order_details : list PostResponse)
  | ExecFailure (error : string) (attempted_size : Q).

Definition result_success (r : ExecutionResult) : bool :=
  match r with
  | ExecSuccess _ _ _ _ => true
  | ExecFailure _ _ => false
  end.

(** The local variables of [execute_market_sell] that change in the loop. *)
Record ExecState := mkExecState {
  sell_price : Q;
  remaining_size : Q;
  total_filled : Q;
  orders_placed : list PostResponse
}.

Section Executor.
Context {V : Type} `{client : ClobClient V}.

(** [create_order] followed by [post_order(signed_order, OrderType.GTC)],
    recorded in the call log. *)
Definition place_order (w : World V) (order_args : OrderArgs) : World V * PlaceResult :=
  match create_order (venue w) order_args with
  | (None, v1) =>
      (mkWorld v1 (calls w ++ [(order_args, CreateRaised)]), CreateRaised)
  | (Some signed_order, v1) =>
      match post_order v1 signed_order GTC with
      | (None, v2) =>
          (mkWorld v2 (calls w ++ [(order_args, PostRaised)]), PostRaised)
      | (Some result, v2) =>
          (mkWorld v2 (calls w ++ [(order_args, Responded result)]), Responded result)
      end
  end.

(** Strategy 1: the starting sell price. *)
Definition price_discovery (position : Position) (w : World V) : World V * Q :=
  match get_order_book (venue w) (token_id position) with
  | (BookBids (best_bid :: _), v1) =>
      (mkWorld v1 (calls w), Qmax 0.001 best_bid)
  | (BookBids [], v1) =>
      (mkWorld v1 (calls w), Qmax 0.001 (current_price position * 0.95))
  | (BookError, v1) =>
      (mkWorld v1 (calls w), Qmax 0.001 (current_price position * 0.90))
  end.

Definition initial_state (position : Position) (price : Q) : ExecState :=
  {| sell_price := price;
     remaining_size := size position;
     total_filled := 0;
     orders_placed := [] |}.

Definition reprice (factor : Q) (st : ExecState) : ExecState :=
  {| sell_price := Qmax 0.001 (sell_price st * factor);
     remaining_size := remaining_size st;
     total_filled := total_filled st;
     orders_placed := orders_placed st |}.

(** One pass through the body of [while remaining_size > 0.1].  [Raised]:
    [create_order] raised, which leaves the function through the outer
    handler. *)
Definition chunk_attempt (position : Position) (chunk_size : Q)
    (w : World V) (st : ExecState) : World V * Completion ExecState :=
  let current_chunk := Qmin (remaining_size st) chunk_size in
  let order_args :=
    {| order_price := sell_price st;
       order_size := current_chunk;
       order_side := SELL;
       order_token_id := token_id position |} in
  match place_order w order_args with
  | (w1, CreateRaised) => (w1, Raised)
  | (w1, PostRaised) => (w1, Returned (reprice 0.90 st))
  | (w1, Responded result) =>
      if resp_success result then
        (mkWorld (get_order (venue w1) (resp_orderID result)) (calls w1),
         Returned
           {| sell_price := sell_price st;
              remaining_size := remaining_size st - current_chunk;
              total_filled := total_filled st + current_chunk;
              orders_placed := orders_placed st ++ [result] |})
      else (w1, Returned (reprice 0.95 st))
  end.

(** Strategy 2: the loop.  [None]: the fuel is spent and the loop is still
    running. *)
Fixpoint chunk_loop (fuel : nat) (position : Position) (chunk_size : Q)
    (w : World V) (st : ExecState) : option (World V * Completion ExecState) :=
  if Qgtb (remaining_size st) 0.1 then
    match fuel with
    | O => None
    | S fuel' =>
        match chunk_attempt position chunk_size w st with
        | (w1, Raised) => Some (w1, Raised)
        | (w1, Returned st1) => chunk_loop fuel' position chunk_size w1 st1
        end
    end
  else Some (w, Returned st).

(** Strategy 3: the block after the loop. *)
Definition final_sweep (position : Position) (w : World V) (st : ExecState)
    : World V * ExecState :=
  if Qgtb (remaining_size st) 0.1 then
    let final_price := Qmax 0.001 (current_price position * 0.50) in
    let order_args :=
      {| order_price := final_price;
         order_size := remaining_size st;
         order_side := SELL;
         order_token_id := token_id position |} in
    match place_order w order_args with
    | (w1, Responded result) =>
        if resp_success result then
          (w1, {| sell_price := sell_price st;
                  remaining_size := remaining_size st;
                  total_filled := total_filled st + remaining_size st;
                  orders_placed := orders_placed st ++ [result] |})
        else (w1, st)
    | (w1, _) => (w1, st)
    end
  else (w, st).

(** The summary. *)
Definition summary (position : Position) (st : ExecState) : ExecutionResult :=
  match orders_placed st with
  | [] => ExecFailure "No orders could be placed" (size position)
  | _ :: _ =>
      ExecSuccess (length (orders_placed st)) (total_filled st)
        (size position - total_filled st) (orders_placed st)
  end.

(** [PolymarketTradingClient.execute_market_sell]. *)
Definition execute_market_sell (fuel : nat) (position : Position)
    (config : StopLossConfig) (w : World V)
    : option (World V * Completion ExecutionResult) :=
  let '(w1, price) := price_discovery position w in
  let chunk_size := Qmin (size position) 50 in
  match chunk_loop fuel position chunk_size w1 (initial_state position price) with
  | None => None
  | Some (w2, Raised) => Some (w2, Raised)
  | Some (w2, Returned st) =>
      let '(w3, st') := final_sweep position w2 st in
      Some (w3, Returned (summary position st'))
  end.

(** The states the executor goes through: after price discovery, after each
    pass through the loop body, and after the final block. *)
Inductive visits (position : Position) (w0 : World V)
    : World V → ExecState → Prop :=
  | visits_start w1 price :
      price_discovery position w0 = (w1, price) →
      visits position w0 w1 (initial_state position price)
  | visits_chunk w st w1 st1 :
      visits position w0 w st →
      Qgtb (remaining_size st) 0.1 = true →
      chunk_attempt position (Qmin (size position) 50) w st = (w1, Returned st1) →
      visits position w0 w1 st1
  | visits_sweep w st w1 st1 :
      visits position w0 w st →
      Qgtb (remaining_size st) 0.1 = false →
      final_sweep position w st = (w1, st1) →
      visits position w0 w1 st1.

(** What holds of every visited state: the calls made since the start, the
    accepted ones among them, and the bookkeeping of sizes and prices. *)
Definition exec_inv (position : Position) (w0 w : World V) (st : ExecState) : Prop :=
  ∃ new,
    calls w = calls w0 ++ new ∧
    total_filled st == accepted_size new ∧
    orders_placed st = accepted_results new ∧
    total_filled st + remaining_size st == size position ∧
    0.001 <= sell_price st ∧
    Forall (λ c, 0.001 <= order_price c.1) new.

(** ** The bot around the executor *)

Record LogEntry := mkLogEntry {
  log_market : string;
  log_outcome : string;
  log_size : Q;
  log_value : Q;
  log_pnl : Q;
  log_pnl_percentage : Q;
  log_order_result : ExecutionResult
}.

Record Bot := mkBot {
  config : StopLossConfig;
  trading_client : bool;
  stop_loss_log : list LogEntry
}.

(** [PolymarketStopLossBot.execute_stop_loss]. *)
Definition execute_stop_loss (fuel : nat) (bot : Bot) (position : Position)
    (w : World V) : option (bool * Bot * World V) :=
  if dry_run (config bot) then Some (true, bot, w)
  else if negb (trading_client bot) then Some (false, bot, w)
  else
    match execute_market_sell fuel position (config bot) w with
    | None => None
    | Some (w1, Raised) => Some (false, bot, w1)
    | Some (w1, Returned result) =>
        Some (true,
              {| config := config bot;
                 trading_client := trading_client bot;
                 stop_loss_log :=
                   stop_loss_log bot ++
                     [{| log_market := market_name position;
                         log_outcome := outcome position;
                         log_size := size position;
                         log_value := current_value position;
                         log_pnl := pnl position;
                         log_pnl_percentage := pnl_percentage position;
                         log_order_result := result |}] |},
              w1)
    end.

(** The [for position in triggered_positions] loop of
    [run_monitoring_cycle]. *)
Fixpoint execute_triggered (fuel : nat) (bot : Bot) (triggered : list Position)
    (w : World V) : option (Bot * World V) :=
  match triggered with
  | [] => Some (bot, w)
  | position :: rest =>
      match execute_stop_loss fuel bot position w with
      | None => None
      | Some (_, bot1, w1) => execute_triggered fuel bot1 rest w1
      end
  end.

(** [run_monitoring_cycle] on the snapshot [fetch_current_positions]
    returned. *)
Definition run_monitoring_cycle (fuel : nat) (bot : Bot) (positions : list Position)
    (w : World V) : option (Bot * World V) :=
  match positions with
  | [] => Some (bot, w)
  | _ :: _ =>
      execute_triggered fuel bot (check_stop_loss_triggers (config bot) positions) w
  end.

(** ** What has reached the venue while a run is still going

    [execute_market_sell] and the cycle around it return [None] while the
    loop is still running.  The functions below follow the same code and
    give the world reached after at most [fuel] passes through the loop,
    whether or not the run is over by then: every order the program ever
    hands to the venue is in the call log of one of these worlds. *)

(** The world after at most [fuel] passes through the body of
    [while remaining_size > 0.1]. *)
Fixpoint chunk_loop_world (fuel : nat) (position : Position) (chunk_size : Q)
    (w : World V) (st : ExecState) : World V :=
  if Qgtb (remaining_size st) 0.1 then
    match fuel with
    | O => w
    | S fuel' =>
        match chunk_attempt position chunk_size w st with
        | (w1, Raised) => w1
        | (w1, Returned st1) => chunk_loop_world fuel' position chunk_size w1 st1
        end
    end
  else w.

(** The world [execute_market_sell] has reached after at most [fuel]
    passes: the world it ends in when it is over by then, the world of the
    loop otherwise. *)
Definition execute_market_sell_world (fuel : nat) (position : Position)
    (config : StopLossConfig) (w : World V) : World V :=
  let '(w1, price) := price_discovery position w in
  let chunk_size := Qmin (size position) 50 in
  match chunk_loop fuel position chunk_size w1 (initial_state position price) with
  | None => chunk_loop_world fuel position chunk_size w1 (initial_state position price)
  | Some (w2, Raised) => w2
  | Some (w2, Returned st) => (final_sweep position w2 st).1
  end.

(** The same for [execute_stop_loss]. *)
Definition execute_stop_loss_world (fuel : nat) (bot : Bot) (position : Position)
    (w : World V) : World V :=
  if dry_run (config bot) then w
  else if negb (trading_client bot) then w
  else execute_market_sell_world fuel position (config bot) w.

(** The same for the [for position in triggered_positions] loop: when the
    sale of a position is still running, the positions after it have not
    been reached. *)
Fixpoint execute_triggered_world (fuel : nat) (bot : Bot) (triggered : list Position)
    (w : World V) : World V :=
  match triggered with
  | [] => w
  | position :: rest =>
      match execute_stop_loss fuel bot position w with
      | None => execute_stop_loss_world fuel bot position w
      | Some (_, bot1, w1) => execute_triggered_world fuel bot1 rest w1
      end
  end.

(** The same for [run_monitoring_cycle]. *)
Definition run_monitoring_cycle_world (fuel : nat) (bot : Bot)
    (positions : list Position) (w : World V) : World V :=
  match positions with
  | [] => w
  | _ :: _ =>
      execute_triggered_world fuel bot
        (check_stop_loss_triggers (config bot) positions) w
  end.

End Executor.

(** A venue that never answers with an acceptance. *)
Definition never_accepts {V : Type} (client : ClobClient V) : Prop :=
  ∀ v signed_order order_type result v1,
    post_order v signed_order order_type = (Some result, v1) →
    resp_success result = false.

(** ** Venues and positions of the end-to-end scenarios *)

(** A venue whose book shows the given bids and that accepts every order. *)
Definition accepting_client (bids : list Q) : ClobClient unit :=
  {| get_order_book := λ v _, (BookBids bids, v);
     create_order := λ v order_args, (Some order_args, v);
     post_order := λ v _ _, (Some (mkPostResponse true "order"), v);
     get_order := λ v _, v |}.

(** A venue whose book shows the given bids and that rejects every order. *)
Definition rejecting_client (bids : list Q) : ClobClient unit :=
  {| get_order_book := λ v _, (BookBids bids, v);
     create_order := λ v order_args, (Some order_args, v);
     post_order := λ v _ _, (Some (mkPostResponse false "N/A"), v);
     get_order := λ v _, v |}.

(** A venue whose book shows the given bids, that accepts the first order
    it is sent and rejects every later one.  Its state says whether an order
    has been accepted. *)
Definition first_only_client (bids : list Q) : ClobClient bool :=
  {| get_order_book := λ (v : bool) _, (BookBids bids, v);
     create_order := λ (v : bool) order_args, (Some order_args, v);
     post_order := λ (v : bool) _ _,
       if v then (Some (mkPostResponse false "N/A"), v)
       else (Some (mkPostResponse true "order"), true);
     get_order := λ (v : bool) _, v |}.

Definition empty_world : World unit := mkWorld () [].

Definition position_of (token : string) (sz price pct : Q) : Position :=
  {| token_id := token;
     market_name := "market";
     outcome := "Yes";
     size := sz;
     current_value := sz * price;
     current_price := price;
     initial_value := sz * price;
     pnl := 0;
     pnl_percentage := pct |}.

(** Scenario A: size 100 at 0.40, best bid 0.38. *)
Definition position_A : Position := position_of "A" 100 0.40 0.

(** Scenario B: size 30, no bids. *)
Definition position_B : Position := position_of "B" 30 0.40 0.

Definition order_A : OrderArgs :=
  {| order_price := 0.38; order_size := 50; order_side := SELL; order_token_id := "A" |}.

(** A position that has lost 25% and trades at 0.10, and a configuration
    whose stop-loss price is 0.15. *)
Definition position_falling : Position := position_of "F" 10 0.10 (-25).

Definition stop_price_config : StopLossConfig :=
  {| stop_loss_percentage := 20;
     stop_loss_price := Some 0.15;
     check_interval := 60;
     min_position_value := 0.1;
     dry_run := true;
     max_slippage := 0.05;
     selected_positions := ∅;
     selection_mode := "all" |}.

Definition selected_nothing : StopLossConfig :=
  set_selection_mode "selected" default_config.

Definition live_config : StopLossConfig :=
  {| stop_loss_percentage := 20;
     stop_loss_price := None;
     check_interval := 60;
     min_position_value := 0.1;
     dry_run := false;
     max_slippage := 0.05;
     selected_positions := ∅;
     selection_mode := "all" |}.

(** ** Snapshot records: [Position.from_data_api] and
       [PolymarketDataClient.fetch_positions] *)

(** A numeric entry of a raw record: absent, readable by [float], or
    something on which [float] raises. *)
Inductive RawNumber :=
  | Missing
  | Number (q : Q)
  | Malformed.

(** A raw record of the Data API: the seven keys [from_data_api] reads. *)
Record RawPosition := mkRawPosition {
  raw_asset : option string;
  raw_title : option string;
  raw_outcome : option string;
  raw_size : RawNumber;
  raw_currentValue : RawNumber;
  raw_curPrice : RawNumber;
  raw_initialValue : RawNumber
}.

(** [float(raw_position.get(key, default))]; [None] when [float] raises. *)
Definition to_float (field : RawNumber) (default_value : Q) : option Q :=
  match field with
  | Missing => Some default_value
  | Number q => Some q
  | Malformed => None
  end.

(** [Position.from_data_api]; [None] is the [ValueError] it raises.  The
    difference and the quotient of the P&L fields are the exact ones; the
    source rounds each operation to a double.  Rounding is monotone and
    leaves 0, -1 and -100 as they are, so the properties below speak of the
    percentage only through its sign, through the case in which it is 0, and
    through the bound -100, which hold of the rounded value as well. *)
Definition from_data_api (raw_position : RawPosition) : option Position :=
  sz ← to_float (raw_size raw_position) 0;
  cv ← to_float (raw_currentValue raw_position) 0;
  cp ← to_float (raw_curPrice raw_position) 0;
  iv ← to_float (raw_initialValue raw_position) cv;
  Some {| token_id := default "" (raw_asset raw_position);
          market_name := default "Unknown Market" (raw_title raw_position);
          outcome := default "Unknown" (raw_outcome raw_position);
          size := sz;
          current_value := cv;
          current_price := cp;
          initial_value := iv;
          pnl := cv - iv;
          pnl_percentage := if Qgtb iv 0 then (cv - iv) / iv * 100 else 0 |}.

(** The loop of [fetch_positions] over the decoded response. *)
Fixpoint parse_positions (cfg : StopLossConfig) (raw_positions : list RawPosition)
    : list Position :=
  match raw_positions with
  | [] => []
  | raw_pos :: rest =>
      match from_data_api raw_pos with
      | Some position =>
          if Qle_bool (min_position_value cfg) (current_value position)
          then position :: parse_positions cfg rest
          else parse_positions cfg rest
      | None => parse_positions cfg rest
      end
  end.

(** [PolymarketDataClient.fetch_positions]: [response] is the decoded body of
    the request, [None] when the request or the decoding raised.  The result
    [None] is the exception the method raises. *)
Definition fetch_positions (user_address : string) (cfg : StopLossConfig)
    (response : option (list RawPosition)) : option (list Position) :=
  if bool_decide (user_address = "") then None
  else
    match response with
    | Some raw_positions => Some (parse_positions cfg raw_positions)
    | None => None
    end.

(** [PolymarketStopLossBot.fetch_current_positions]. *)
Definition fetch_current_positions (user_address : string) (cfg : StopLossConfig)
    (response : option (list RawPosition)) : list Position :=
  default [] (fetch_positions user_address cfg response).

(** Whether [filter_monitored_positions] keeps a position, as a test on the
    position alone. *)
Definition monitors (cfg : StopLossConfig) (pos : Position) : bool :=
  bool_decide (selection_mode cfg = "all") ||
  (bool_decide (selection_mode cfg = "selected") && negb (no_selection cfg) &&
   bool_decide (token_id pos ∈ selected_positions cfg)).

(** ** The table of [print_positions_summary] *)

Record SummaryRow := mkSummaryRow {
  row_position : Position;
  row_monitored : bool;
  row_stop_loss : bool
}.

Definition summary_row (cfg : StopLossConfig) (monitored_token_ids : gset string)
    (pos : Position) : SummaryRow :=
  let is_monitored := bool_decide (token_id pos ∈ monitored_token_ids) in
  let percentage_triggered :=
    is_monitored && Qle_bool (pnl_percentage pos) (- stop_loss_percentage cfg) in
  let price_triggered :=
    is_monitored &&
    match stop_loss_price cfg with
    | Some stop => Qle_bool (current_price pos) stop
    | None => false
    end in
  {| row_position := pos;
     row_monitored := is_monitored;
     row_stop_loss := percentage_triggered || price_triggered |}.

(** The rows printed, with the two totals of the last line. *)
Definition print_positions_summary (cfg : StopLossConfig) (positions : list Position)
    : list SummaryRow * Q * Q :=
  let monitored_positions := filter_monitored_positions cfg positions in
  let monitored_token_ids : gset string :=
    list_to_set (token_id <$> monitored_positions) in
  (summary_row cfg monitored_token_ids <$> positions,
   foldl (λ total pos, total + current_value pos) 0 positions,
   foldl (λ total pos, total + pnl pos) 0 positions).

(** The count in the warning of [filter_monitored_positions], mode
    "selected". *)
Definition missing_count (cfg : StopLossConfig) (positions : list Position) : Z :=
  (Z.of_nat (stdpp.base.size (selected_positions cfg)) -
   Z.of_nat (length (filter_monitored_positions cfg positions)))%Z.

(** ** [PositionSelector]: the selection file and the dialogue *)

(** The file [selected_positions.json]: absent, a JSON list of strings, or
    anything [json.load] rejects or that is no list. *)
Inductive SelectionFile :=
  | NoFile
  | JsonStrings (ids : list string)
  | NotAList.

(** How a call of [save_selected_positions] went: the list was written, or
    an exception was caught and the file is left in the given state. *)
Inductive SaveOutcome :=
  | Written
  | WriteFailed (file_left : SelectionFile).

Definition save_selected_positions (selected : gset string) (how : SaveOutcome)
    : SelectionFile :=
  match how with
  | Written => JsonStrings (elements selected)
  | WriteFailed file_left => file_left
  end.

Definition load_selected_positions (file : SelectionFile) : gset string :=
  match file with
  | NoFile => ∅
  | JsonStrings ids => list_to_set ids
  | NotAList => ∅
  end.

(** One line typed at the prompt of [interactive_position_selection], after
    [strip().lower()]; a list of numbers is the line split at commas and read
    by [int]. *)
Inductive SelectionInput :=
  | InDone
  | InAll
  | InClear
  | InEmpty
  | InNumbers (numbers : list Z)
  | InNotNumbers.

(** [num in position_map] and [position_map[num]], the map numbering the
    positions from 1. *)
Definition position_map_lookup (positions : list Position) (num : Z) : option Position :=
  if bool_decide (1 ≤ num)%Z then positions !! Z.to_nat (num - 1) else None.

(** The token ids collected by [for num in numbers]. *)
Definition numbers_selection (positions : list Position) (numbers : list Z) : gset string :=
  list_to_set (token_id <$> omap (position_map_lookup positions) numbers).

(** The [while True] loop; the end of the inputs is the interrupt that
    leaves it. *)
Fixpoint selection_loop (positions : list Position) (current_selected : gset string)
    (inputs : list SelectionInput) : gset string :=
  match inputs with
  | [] => current_selected
  | InDone :: _ => current_selected
  | InAll :: rest =>
      selection_loop positions (list_to_set (token_id <$> positions)) rest
  | InClear :: rest => selection_loop positions ∅ rest
  | InEmpty :: rest => selection_loop positions current_selected rest
  | InNumbers numbers :: rest =>
      let new_selections := numbers_selection positions numbers in
      if bool_decide (new_selections = ∅)
      then selection_loop positions current_selected rest
      else selection_loop positions new_selections rest
  | InNotNumbers :: rest => selection_loop positions current_selected rest
  end.

Definition interactive_position_selection (positions : list Position)
    (current_selected : gset string) (inputs : list SelectionInput) : gset string :=
  match positions with
  | [] => current_selected
  | _ :: _ => selection_loop positions current_selected inputs
  end.

(** ** The menu of [main], as far as it changes the configuration and the
       selection file *)

Definition set_stop_loss_percentage (pct : Q) (cfg : StopLossConfig) : StopLossConfig :=
  {| stop_loss_percentage := pct;
     stop_loss_price := stop_loss_price cfg;
     check_interval := check_interval cfg;
     min_position_value := min_position_value cfg;
     dry_run := dry_run cfg;
     max_slippage := max_slippage cfg;
     selected_positions := selected_positions cfg;
     selection_mode := selection_mode cfg |}.

Definition set_stop_loss_price (price : option Q) (cfg : StopLossConfig) : StopLossConfig :=
  {| stop_loss_percentage := stop_loss_percentage cfg;
     stop_loss_price := price;
     check_interval := check_interval cfg;
     min_position_value := min_position_value cfg;
     dry_run := dry_run cfg;
     max_slippage := max_slippage cfg;
     selected_positions := selected_positions cfg;
     selection_mode := selection_mode cfg |}.

Definition set_check_interval (interval : Z) (cfg : StopLossConfig) : StopLossConfig :=
  {| stop_loss_percentage := stop_loss_percentage cfg;
     stop_loss_price := stop_loss_price cfg;
     check_interval := interval;
     min_position_value := min_position_value cfg;
     dry_run := dry_run cfg;
     max_slippage := max_slippage cfg;
     selected_positions := selected_positions cfg;
     selection_mode := selection_mode cfg |}.

Definition set_min_position_value (value : Q) (cfg : StopLossConfig) : StopLossConfig :=
  {| stop_loss_percentage := stop_loss_percentage cfg;
     stop_loss_price := stop_loss_price cfg;
     check_interval := check_interval cfg;
     min_position_value := value;
     dry_run := dry_run cfg;
     max_slippage := max_slippage cfg;
     selected_positions := selected_positions cfg;
     selection_mode := selection_mode cfg |}.

Definition set_dry_run (flag : bool) (cfg : StopLossConfig) : StopLossConfig :=
  {| stop_loss_percentage := stop_loss_percentage cfg;
     stop_loss_price := stop_loss_price cfg;
     check_interval := check_interval cfg;
     min_position_value := min_position_value cfg;
     dry_run := flag;
     max_slippage := max_slippage cfg;
     selected_positions := selected_positions cfg;
     selection_mode := selection_mode cfg |}.

(** What [PolymarketStopLossBot.__init__] does to the configuration object it
    shares with its caller: in mode "selected" the selection is read again
    from the file.  This happens before the trading client is set up, so it
    stays also when that raises. *)
Definition bot_init_config (cfg : StopLossConfig) (file : SelectionFile) : StopLossConfig :=
  if bool_decide (selection_mode cfg = "selected")
  then set_selected_positions (load_selected_positions file) cfg
  else cfg.

(** [__init__] raises when the trading client, needed with dry run off,
    cannot be set up. *)
Definition bot_init_raises (cfg : StopLossConfig) (client_ok : bool) : bool :=
  negb (dry_run cfg) && negb client_ok.

(** One pass through the menu: the choice typed, with what the branch reads
    after it.  A number that [float] or [int] cannot read is [None];
    [client_ok] says whether a trading client can be set up, [positions] is
    what [fetch_current_positions] returns. *)
Inductive MenuInput :=
  | Choice1
  | Choice2 (entry : option Q)
  | Choice3 (entry : option Z)
  | Choice4a (entry : option Q)
  | Choice4b_clear
  | Choice4b (entry : option Q)
  | Choice4_other
  | Choice5 (confirm : string)
  | Choice6 (client_ok : bool)
  | Choice7 (client_ok : bool) (positions : list Position)
      (inputs : list SelectionInput) (how : SaveOutcome)
  | Choice8
  | Choice9 (client_ok : bool)
  | Choice10
  | Choice11 (how : SaveOutcome)
  | ChoiceOther.

Record MenuState := mkMenuState {
  menu_config : StopLossConfig;
  menu_file : SelectionFile
}.

Inductive MenuResult :=
  | Continue (st : MenuState)
  | StartMonitoring (st : MenuState)
  | Goodbye.

(** [PolymarketStopLossBot.select_positions_for_monitoring] on the shared
    configuration, with the file it saves to. *)
Definition select_positions_step (st : MenuState) (positions : list Position)
    (inputs : list SelectionInput) (how : SaveOutcome) : MenuState :=
  match positions with
  | [] => st
  | _ :: _ =>
      let new_selections :=
        interactive_position_selection positions
          (selected_positions (menu_config st)) inputs in
      {| menu_config := select_positions_for_monitoring (menu_config st) new_selections;
         menu_file := save_selected_positions new_selections how |}
  end.

(** The branch of choice 7. *)
Definition choice7 (st : MenuState) (client_ok : bool) (positions : list Position)
    (inputs : list SelectionInput) (how : SaveOutcome) : MenuState :=
  let cfg1 := bot_init_config (menu_config st) (menu_file st) in
  if bot_init_raises cfg1 client_ok then mkMenuState cfg1 (menu_file st)
  else
    let st2 := select_positions_step (mkMenuState cfg1 (menu_file st))
                 positions inputs how in
    mkMenuState
      (set_selection_mode
         (if no_selection (menu_config st2) then "none" else "selected")
         (menu_config st2))
      (menu_file st2).

Definition menu_step (st : MenuState) (input : MenuInput) : MenuResult :=
  let cfg := menu_config st in
  match input with
  | Choice1 =>
      if bool_decide (selection_mode cfg = "none") then Continue st
      else if bool_decide (selection_mode cfg = "selected") && no_selection cfg
      then Continue st
      else StartMonitoring st
  | Choice2 (Some new_pct) =>
      if Qgtb new_pct 0 && Qle_bool new_pct 100
      then Continue (mkMenuState (set_stop_loss_percentage new_pct cfg) (menu_file st))
      else Continue st
  | Choice2 None => Continue st
  | Choice3 (Some new_interval) =>
      if bool_decide (10 ≤ new_interval)%Z
      then Continue (mkMenuState (set_check_interval new_interval cfg) (menu_file st))
      else Continue st
  | Choice3 None => Continue st
  | Choice4a (Some new_min) =>
      if Qle_bool 0 new_min
      then Continue (mkMenuState (set_min_position_value new_min cfg) (menu_file st))
      else Continue st
  | Choice4a None => Continue st
  | Choice4b_clear =>
      Continue (mkMenuState (set_stop_loss_price None cfg) (menu_file st))
  | Choice4b (Some new_price) =>
      if Qgtb new_price 0
      then Continue (mkMenuState (set_stop_loss_price (Some new_price) cfg) (menu_file st))
      else Continue st
  | Choice4b None => Continue st
  | Choice4_other => Continue st
  | Choice5 confirm =>
      if dry_run cfg then
        if bool_decide (confirm = "CONFIRM")
        then Continue (mkMenuState (set_dry_run false cfg) (menu_file st))
        else Continue st
      else Continue (mkMenuState (set_dry_run true cfg) (menu_file st))
  | Choice6 client_ok =>
      Continue (mkMenuState (bot_init_config cfg (menu_file st)) (menu_file st))
  | Choice7 client_ok positions inputs how =>
      Continue (choice7 st client_ok positions inputs how)
  | Choice8 =>
      Continue (mkMenuState
                  (set_selected_positions ∅ (set_selection_mode "all" cfg))
                  (menu_file st))
  | Choice9 client_ok =>
      if bool_decide (selection_mode cfg = "selected") && negb (no_selection cfg)
      then Continue (mkMenuState (bot_init_config cfg (menu_file st)) (menu_file st))
      else Continue st
  | Choice10 => Goodbye
  | Choice11 how =>
      Continue (mkMenuState
                  (set_selected_positions ∅ (set_selection_mode "none" cfg))
                  (save_selected_positions ∅ how))
  | ChoiceOther => Continue st
  end.

(** The state in which [main] shows the menu for the first time. *)
Definition menu_start (file : SelectionFile) : MenuState :=
  let saved_positions := load_selected_positions file in
  if bool_decide (saved_positions = ∅) then mkMenuState default_config file
  else
    mkMenuState
      (set_selection_mode "selected"
         (set_selected_positions saved_positions default_config))
      file.

(** The menu loop over the choices typed; when they run out the menu is
    still open. *)
Fixpoint menu_loop (st : MenuState) (inputs : list MenuInput) : MenuResult :=
  match inputs with
  | [] => Continue st
  | input :: rest =>
      match menu_step st input with
      | Continue st1 => menu_loop st1 rest
      | StartMonitoring st1 => StartMonitoring st1
      | Goodbye => Goodbye
      end
  end.

(** The configuration with which the monitoring loop runs once [main] has
    left the menu: the bot is built on the shared configuration and
    [start_monitoring] adjusts the mode. *)
Definition monitoring_config (st : MenuState) : StopLossConfig :=
  start_monitoring_config (bot_init_config (menu_config st) (menu_file st)).

(** Whether a choice writes the selection file and the write fails. *)
Definition write_fails (input : MenuInput) : bool :=
  match input with
  | Choice7 _ _ _ (WriteFailed _) => true
  | Choice11 (WriteFailed _) => true
  | _ => false
  end.

(** The menu result carries a state: the menu is still open, or monitoring
    starts. *)
Definition menu_reaches (r : MenuResult) (st : MenuState) : Prop :=
  r = Continue st ∨ r = StartMonitoring st.

(** The ranges the menu checks before it stores a setting. *)
Definition settings_valid (cfg : StopLossConfig) : Prop :=
  0 < stop_loss_percentage cfg ∧ stop_loss_percentage cfg <= 100 ∧
  (10 ≤ check_interval cfg)%Z ∧
  0 <= min_position_value cfg ∧
  ∀ price, stop_loss_price cfg = Some price → 0 < price.

(** Mode and selection fit together and fit the selection file. *)
Definition selection_consistent (st : MenuState) : Prop :=
  let cfg := menu_config st in
  (selection_mode cfg = "none" ∨ selection_mode cfg = "all" ∨
   selection_mode cfg = "selected") ∧
  (selection_mode cfg ≠ "selected" → selected_positions cfg = ∅) ∧
  (selection_mode cfg = "selected" →
     selected_positions cfg = load_selected_positions (menu_file st)).

(** A venue that accepts every order and never raises. *)
Definition always_accepts {V : Type} (client : ClobClient V) : Prop :=
  (∀ v order_args, ∃ signed_order v1,
      create_order v order_args = (Some signed_order, v1)) ∧
  (∀ v signed_order order_type, ∃ result v1,
      post_order v signed_order order_type = (Some result, v1) ∧
      resp_success result = true).

(** * Properties *)

(** ** Arithmetic of the comparisons and of the price floor *)

Lemma Qgtb_true (x y : Q) : Qgtb x y = true ↔ y < x.
Proof.
  unfold Qgtb. rewrite negb_true_iff, <- not_true_iff_false, Qle_bool_iff.
  split; [apply Qnot_le_lt | apply Qlt_not_le].
Qed.

Lemma Qgtb_false (x y : Q) : Qgtb x y = false ↔ x <= y.
Proof.
  unfold Qgtb. rewrite negb_false_iff. apply Qle_bool_iff.
Qed.

Lemma Qle_bool_false (x y : Q) : Qle_bool x y = false ↔ y < x.
Proof.
  rewrite <- not_true_iff_false, Qle_bool_iff.
  split; [apply Qnot_le_lt | apply Qlt_not_le].
Qed.

Lemma price_floor (x : Q) : 0.001 <= Qmax 0.001 x.
Proof. apply Q.le_max_l. Qed.

(** ** Trigger evaluation *)

Lemma percentage_triggered_iff cfg position :
  percentage_triggered cfg position = true ↔
  pnl_percentage position <= - stop_loss_percentage cfg.
Proof. apply Qle_bool_iff. Qed.

Lemma price_triggered_iff cfg position :
  price_triggered cfg position = true ↔
  ∃ stop, stop_loss_price cfg = Some stop ∧ current_price position <= stop.
Proof.
  unfold price_triggered. destruct (stop_loss_price cfg) as [stop|].
  - rewrite Qle_bool_iff. split.
    + intros Hle. exists stop. split; [reflexivity | exact Hle].
    + intros (stop' & Heq & Hle). injection Heq as ->. exact Hle.
  - split; [discriminate | intros (stop & Heq & _); discriminate].
Qed.

Lemma scan_triggers_filter cfg monitored :
  (scan_triggers cfg monitored).*1 =
  filter (λ position, (evaluate cfg position).1 = true) monitored.
Proof.
  induction monitored as [|position rest IH]; [reflexivity|].
  cbn [scan_triggers]. rewrite filter_cons.
  destruct (evaluate cfg position) as [[|] reasons] eqn:Heval; cbn [fst].
  - rewrite decide_True by reflexivity. cbn. by rewrite IH.
  - rewrite decide_False by discriminate. exact IH.
Qed.

(** C2.  A monitored position is triggered exactly when its P&L percentage is
    at most minus the stop-loss percentage, or a stop-loss price is set and
    the current price is at most that price.  Each condition contributes its
    own reason, independently of the other, so both reasons are reported when
    both hold.  The percentage boundary is inclusive: with a stop-loss
    percentage of 20 and no stop-loss price, -20 triggers and -19.9 does
    not.  [check_stop_loss_triggers] keeps exactly the monitored positions
    for which the decision is positive. *)
Theorem trigger_rule (cfg : StopLossConfig) (position : Position) :
  ((evaluate cfg position).1 = true ↔
     pnl_percentage position <= - stop_loss_percentage cfg ∨
     ∃ stop, stop_loss_price cfg = Some stop ∧ current_price position <= stop)
  ∧ (LossReason (pnl_percentage position) ∈ (evaluate cfg position).2 ↔
       pnl_percentage position <= - stop_loss_percentage cfg)
  ∧ (∀ stop, PriceReason (current_price position) stop ∈ (evaluate cfg position).2 ↔
       stop_loss_price cfg = Some stop ∧ current_price position <= stop)
  ∧ (∀ stop,
       pnl_percentage position <= - stop_loss_percentage cfg →
       stop_loss_price cfg = Some stop → current_price position <= stop →
       (evaluate cfg position).2 =
         [LossReason (pnl_percentage position);
          PriceReason (current_price position) stop])
  ∧ (stop_loss_percentage cfg == 20 → stop_loss_price cfg = None →
       (pnl_percentage position == -20 → (evaluate cfg position).1 = true) ∧
       (pnl_percentage position == -19.9 → (evaluate cfg position).1 = false))
  ∧ (∀ positions,
       check_stop_loss_triggers cfg positions =
       filter (λ p, (evaluate cfg p).1 = true)
         (filter_monitored_positions cfg positions)).
Proof.
  pose proof (percentage_triggered_iff cfg position) as Hpct.
  pose proof (price_triggered_iff cfg position) as Hprice.
  assert (Hdec : (evaluate cfg position).1 =
                 percentage_triggered cfg position || price_triggered cfg position).
  { unfold evaluate. by destruct (_ || _). }
  assert (Hreasons : ∀ r, r ∈ (evaluate cfg position).2 ↔ r ∈ trigger_reason cfg position).
  { intros r. unfold evaluate.
    destruct (_ || _) eqn:Hor; [reflexivity|].
    apply orb_false_iff in Hor as [Hp Hq]. unfold trigger_reason, price_triggered in *.
    rewrite Hp. destruct (stop_loss_price cfg); [rewrite Hq|]; reflexivity. }
  split; [|split; [|split; [|split; [|split]]]].
  - rewrite Hdec, orb_true_iff, Hpct, Hprice. reflexivity.
  - rewrite Hreasons, <- Hpct. unfold trigger_reason.
    destruct (percentage_triggered cfg position);
      destruct (stop_loss_price cfg) as [stop|];
      try destruct (price_triggered cfg position);
      cbn; rewrite ?elem_of_cons, ?elem_of_nil; split; intros; auto;
      try discriminate;
      repeat match goal with H : _ ∨ _ |- _ => destruct H end;
      try discriminate; contradiction.
  - intros stop. rewrite Hreasons. unfold trigger_reason, price_triggered.
    destruct (stop_loss_price cfg) as [stop'|].
    + destruct (Qle_bool (current_price position) stop') eqn:Hle;
        destruct (percentage_triggered cfg position); cbn;
        rewrite ?elem_of_cons, ?elem_of_nil.
      * apply Qle_bool_iff in Hle. split.
        -- intros [H|[H|[]]]; [discriminate|]. injection H as <-. auto.
        -- intros [H _]. injection H as ->. auto.
      * apply Qle_bool_iff in Hle. split.
        -- intros [H|[]]. injection H as <-. auto.
        -- intros [H _]. injection H as ->. auto.
      * apply Qle_bool_false in Hle. split.
        -- intros [H|[]]. discriminate.
        -- intros [H Hle']. injection H as ->.
           exfalso. apply (Qlt_not_le _ _ Hle), Hle'.
      * apply Qle_bool_false in Hle. split.
        -- intros [].
        -- intros [H Hle']. injection H as ->.
           exfalso. apply (Qlt_not_le _ _ Hle), Hle'.
    + destruct (percentage_triggered cfg position); cbn;
        rewrite ?elem_of_cons, ?elem_of_nil; split;
        try (intros [H _]; discriminate); intros H;
        repeat match goal with H : _ ∨ _ |- _ => destruct H end;
        try discriminate; contradiction.
  - intros stop Hp Hs Hq. unfold evaluate, trigger_reason.
    assert (Hq' : price_triggered cfg position = true).
    { apply Hprice. eauto. }
    apply Hpct in Hp. rewrite Hp, Hq'. cbn. rewrite Hs.
    reflexivity.
  - intros Hslp Hnone. rewrite Hdec.
    assert (Hq : price_triggered cfg position = false).
    { unfold price_triggered. by rewrite Hnone. }
    rewrite Hq, orb_false_r. split; intros Hpnl.
    + apply Hpct. rewrite Hpnl, Hslp. apply Qle_refl.
    + apply not_true_iff_false. rewrite Hpct, Hpnl, Hslp. intros Hle.
      revert Hle. apply Qlt_not_le. reflexivity.
  - intros positions. apply scan_triggers_filter.
Qed.

Lemma trigger_rule_witness :
  (evaluate stop_price_config position_falling).2 =
  [LossReason (pnl_percentage position_falling);
   PriceReason (current_price position_falling) 0.15].
Proof.
  apply (proj1 (proj2 (proj2 (proj2 (trigger_rule stop_price_config position_falling))))).
  - vm_compute. discriminate.
  - reflexivity.
  - vm_compute. discriminate.
Defined.

(** Scenario C: the boundary at a stop-loss percentage of 20. *)
Example boundary_inclusive :
  (evaluate default_config (position_of "C" 10 0.30 (-20))).1 = true ∧
  (evaluate default_config (position_of "C" 10 0.30 (-19.9))).1 = false.
Proof. split; reflexivity. Qed.

(** ** Selection filter *)

Lemma filter_selected_empty cfg positions :
  selection_mode cfg = "selected" → selected_positions cfg = ∅ →
  filter_monitored_positions cfg positions = [].
Proof.
  intros Hmode Hsel. unfold filter_monitored_positions, no_selection.
  rewrite Hmode, Hsel. reflexivity.
Qed.

Lemma filter_all cfg positions :
  selection_mode cfg = "all" →
  filter_monitored_positions cfg positions = positions.
Proof.
  intros Hmode. unfold filter_monitored_positions. rewrite Hmode. reflexivity.
Qed.

Lemma start_monitoring_selected_empty cfg :
  selection_mode cfg = "selected" → selected_positions cfg = ∅ →
  selection_mode (start_monitoring_config cfg) = "all".
Proof.
  intros Hmode Hsel. unfold start_monitoring_config, no_selection.
  rewrite Hmode, Hsel. reflexivity.
Qed.

(** After the mode change of [start_monitoring], a configuration that
    selected nothing monitors the whole snapshot. *)
Lemma start_monitoring_monitors_everything cfg positions :
  selection_mode cfg = "selected" → selected_positions cfg = ∅ →
  filter_monitored_positions cfg positions = [] ∧
  filter_monitored_positions (start_monitoring_config cfg) positions = positions.
Proof.
  intros Hmode Hsel. split.
  - by apply filter_selected_empty.
  - by apply filter_all, start_monitoring_selected_empty.
Qed.

(** C8.  In mode "none" the filter returns the empty list whatever the
    snapshot holds, so the trigger loop runs over no position and no position
    is reported as triggered. *)
Theorem filter_none_empty (cfg : StopLossConfig) (positions : list Position) :
  selection_mode cfg = "none" →
  filter_monitored_positions cfg positions = [] ∧
  scan_triggers cfg (filter_monitored_positions cfg positions) = [] ∧
  check_stop_loss_triggers cfg positions = [].
Proof.
  intros Hmode.
  assert (H : filter_monitored_positions cfg positions = []).
  { unfold filter_monitored_positions. rewrite Hmode. reflexivity. }
  unfold check_stop_loss_triggers. rewrite H. auto.
Qed.

Lemma filter_none_empty_witness :
  filter_monitored_positions default_config [position_A; position_B] = [] ∧
  scan_triggers default_config
    (filter_monitored_positions default_config [position_A; position_B]) = [] ∧
  check_stop_loss_triggers default_config [position_A; position_B] = [].
Proof.
  apply (filter_none_empty default_config [position_A; position_B]).
  reflexivity.
Defined.

(** C5.  The filter treats mode "selected" with an empty selection like mode
    "none", but [start_monitoring] turns that configuration into mode "all"
    before its loop, and so does [select_positions_for_monitoring] for an
    empty selection: from then on every position of the snapshot is
    monitored, and a position that has lost enough is reported as triggered
    although nothing was selected. *)
Theorem selected_empty_falls_back_to_all :
  let loser := position_of "x" 10 0.3 (-25) in
  filter_monitored_positions selected_nothing [position_A; loser] = [] ∧
  validate_configuration selected_nothing "0xabc" = false ∧
  selection_mode (start_monitoring_config selected_nothing) = "all" ∧
  filter_monitored_positions (start_monitoring_config selected_nothing)
    [position_A; loser] = [position_A; loser] ∧
  check_stop_loss_triggers (start_monitoring_config selected_nothing)
    [position_A; loser] = [loser] ∧
  selection_mode (select_positions_for_monitoring selected_nothing ∅) = "all".
Proof.
  cbv zeta. repeat split; vm_compute; reflexivity.
Qed.

(** ** The executor *)

Lemma accepted_size_app log1 log2 :
  accepted_size (log1 ++ log2) == accepted_size log1 + accepted_size log2.
Proof.
  induction log1 as [|[args r] rest IH]; cbn.
  - lra.
  - destruct (is_accepted r); rewrite IH; lra.
Qed.

Lemma accepted_results_app log1 log2 :
  accepted_results (log1 ++ log2) = accepted_results log1 ++ accepted_results log2.
Proof.
  induction log1 as [|[args r] rest IH]; cbn; [reflexivity|].
  destruct r as [| |result]; try exact IH.
  destruct (resp_success result); [rewrite IH; reflexivity | exact IH].
Qed.

Lemma accepted_results_nil log :
  accepted_results log = [] ↔ ∀ c, c ∈ log → is_accepted c.2 = false.
Proof.
  induction log as [|[args r] rest IH]; cbn.
  - split; [intros _ c Hc; inversion Hc | reflexivity].
  - destruct r as [| |result]; cbn.
    + rewrite IH. split.
      * intros H c Hc. apply elem_of_cons in Hc as [->|Hc]; [reflexivity | auto].
      * intros H c Hc. apply H. by right.
    + rewrite IH. split.
      * intros H c Hc. apply elem_of_cons in Hc as [->|Hc]; [reflexivity | auto].
      * intros H c Hc. apply H. by right.
    + destruct (resp_success result) eqn:Hs.
      * split; [discriminate|]. intros H.
        specialize (H (args, Responded result) ltac:(by left)). cbn in H. congruence.
      * rewrite IH. split.
        -- intros H c Hc. apply elem_of_cons in Hc as [->|Hc]; [exact Hs | auto].
        -- intros H c Hc. apply H. by right.
Qed.

Section ExecutorProperties.
Context {V : Type} `{client : ClobClient V}.

Lemma place_order_calls (w w1 : World V) order_args r :
  place_order w order_args = (w1, r) →
  calls w1 = calls w ++ [(order_args, r)].
Proof.
  unfold place_order.
  destruct (create_order (venue w) order_args) as [[signed|] v1].
  - destruct (post_order v1 signed GTC) as [[result|] v2];
      intros [= <- <-]; reflexivity.
  - intros [= <- <-]. reflexivity.
Qed.

Lemma price_discovery_calls position (w w1 : World V) price :
  price_discovery position w = (w1, price) →
  calls w1 = calls w ∧ 0.001 <= price.
Proof.
  unfold price_discovery.
  destruct (get_order_book (venue w) (token_id position)) as [[|[|best_bid bids]] v1];
    intros [= <- <-]; (split; [reflexivity | apply price_floor]).
Qed.

(** What one pass through the loop body does to the state and the log. *)
Lemma chunk_attempt_cases position chunk_size (w w1 : World V) st c :
  chunk_attempt position chunk_size w st = (w1, c) →
  let order_args :=
    {| order_price := sell_price st;
       order_size := Qmin (remaining_size st) chunk_size;
       order_side := SELL;
       order_token_id := token_id position |} in
  ∃ r, calls w1 = calls w ++ [(order_args, r)] ∧
    match r with
    | CreateRaised => c = Raised
    | PostRaised => c = Returned (reprice 0.90 st)
    | Responded result =>
        if resp_success result then
          c = Returned
                {| sell_price := sell_price st;
                   remaining_size :=
                     remaining_size st - Qmin (remaining_size st) chunk_size;
                   total_filled :=
                     total_filled st + Qmin (remaining_size st) chunk_size;
                   orders_placed := orders_placed st ++ [result] |}
        else c = Returned (reprice 0.95 st)
    end.
Proof.
  unfold chunk_attempt. cbv zeta.
  destruct (place_order w _) as [w2 r] eqn:Hplace.
  apply place_order_calls in Hplace.
  destruct r as [| |result].
  - intros [= <- <-]. exists CreateRaised. auto.
  - intros [= <- <-]. exists PostRaised. auto.
  - destruct (resp_success result) eqn:Hs.
    + intros [= <- <-]. exists (Responded result). rewrite Hs. cbn. auto.
    + intros [= <- <-]. exists (Responded result). rewrite Hs. auto.
Qed.

Lemma final_sweep_skipped position (w : World V) st :
  Qgtb (remaining_size st) 0.1 = false →
  final_sweep position w st = (w, st).
Proof. intros H. unfold final_sweep. rewrite H. reflexivity. Qed.

Lemma visits_inv position (w0 w : World V) st :
  visits position w0 w st → exec_inv position w0 w st.
Proof.
  induction 1 as [w1 price Hpd | w st w1 st1 _ IH Hgt Hstep | w st w1 st1 _ IH Hle Hsweep].
  - apply price_discovery_calls in Hpd as [Hcalls Hfloor].
    exists []. cbn. rewrite Hcalls, app_nil_r.
    repeat split; auto; try lra. 
  - destruct IH as (new & Hcalls & Htotal & Horders & Hsum & Hprice & Hall).
    apply chunk_attempt_cases in Hstep. cbv zeta in Hstep.
    destruct Hstep as (r & Hcalls1 & Hr).
    exists (new ++ [({| order_price := sell_price st;
                         order_size := Qmin (remaining_size st) (Qmin (size position) 50);
                         order_side := SELL;
                         order_token_id := token_id position |}, r)]).
    assert (Hall1 : Forall (λ c : OrderArgs * PlaceResult, 0.001 <= order_price c.1)
              (new ++ [({| order_price := sell_price st;
                           order_size := Qmin (remaining_size st) (Qmin (size position) 50);
                           order_side := SELL;
                           order_token_id := token_id position |}, r)])).
    { apply Forall_app. split; [exact Hall|]. constructor; [exact Hprice | constructor]. }
    rewrite Hcalls1, Hcalls, <- app_assoc.
    rewrite accepted_size_app, accepted_results_app.
    destruct r as [| |result]; [discriminate | |].
    + injection Hr as ->. cbn.
      rewrite app_nil_r. repeat split; auto; try lra. apply price_floor.
    + destruct (resp_success result) eqn:Hs; injection Hr as ->; cbn; rewrite Hs.
      * repeat split; auto; try lra. by rewrite Horders.
      * rewrite app_nil_r. repeat split; auto; try lra. apply price_floor.
  - rewrite final_sweep_skipped in Hsweep by exact Hle.
    injection Hsweep as <- <-. exact IH.
Qed.

Lemma chunk_loop_visits fuel position (w0 w w1 : World V) st st1 :
  visits position w0 w st →
  chunk_loop fuel position (Qmin (size position) 50) w st = Some (w1, Returned st1) →
  visits position w0 w1 st1 ∧ Qgtb (remaining_size st1) 0.1 = false.
Proof.
  revert w st. induction fuel as [|fuel IH]; intros w st Hvis; cbn.
  - destruct (Qgtb (remaining_size st) 0.1) eqn:Hgt; [discriminate|].
    intros [= <- <-]. auto.
  - destruct (Qgtb (remaining_size st) 0.1) eqn:Hgt.
    + destruct (chunk_attempt position _ w st) as [w2 [|st2]] eqn:Hstep; [discriminate|].
      apply IH. eapply visits_chunk; eauto.
    + intros [= <- <-]. auto.
Qed.

(** A returned result is the summary of a visited state at which the loop
    condition is false; the final block has not changed that state. *)
Lemma execute_market_sell_returned fuel position cfg (w0 w1 : World V) r :
  execute_market_sell fuel position cfg w0 = Some (w1, Returned r) →
  ∃ st, visits position w0 w1 st ∧ r = summary position st ∧
        remaining_size st <= 0.1.
Proof.
  unfold execute_market_sell.
  destruct (price_discovery position w0) as [w price] eqn:Hpd.
  destruct (chunk_loop fuel position _ w _) as [[w2 [|st]]|] eqn:Hloop; try discriminate.
  apply (chunk_loop_visits fuel position w0) in Hloop as [Hvis Hle];
    [|by constructor].
  rewrite final_sweep_skipped by exact Hle. intros [= <- <-].
  exists st. repeat split; auto. by apply Qgtb_false.
Qed.

End ExecutorProperties.

Lemma accepted_results_nonempty log x xs :
  accepted_results log = x :: xs →
  ∃ c, c ∈ log ∧ is_accepted c.2 = true.
Proof.
  induction log as [|[args r] rest IH]; cbn; [discriminate|].
  assert (Hrest : accepted_results rest = x :: xs →
                  ∃ c, c ∈ (args, r) :: rest ∧ is_accepted c.2 = true).
  { intros H. destruct (IH H) as (c & Hc & Hacc). exists c. split; [by right | exact Hacc]. }
  destruct r as [| |result]; try exact Hrest.
  destruct (resp_success result) eqn:Hs; [|exact Hrest].
  intros _. exists (args, Responded result). split; [by left | exact Hs].
Qed.

Lemma accepted_size_none log :
  accepted_results log = [] → accepted_size log == 0.
Proof.
  induction log as [|[args r] rest IH]; cbn; [reflexivity|].
  destruct r as [| |result]; cbn; try exact IH.
  destruct (resp_success result); [discriminate | exact IH].
Qed.

(** The loop is left normally only with the loop condition false. *)
Lemma chunk_loop_exit {V : Type} {client : ClobClient V}
    fuel position chunk_size (w w1 : World V) st st1 :
  chunk_loop fuel position chunk_size w st = Some (w1, Returned st1) →
  Qgtb (remaining_size st1) 0.1 = false.
Proof.
  revert w st. induction fuel as [|fuel IH]; intros w st; cbn.
  - destruct (Qgtb (remaining_size st) 0.1) eqn:Hgt; [discriminate|].
    by intros [= <- <-].
  - destruct (Qgtb (remaining_size st) 0.1) eqn:Hgt; [|by intros [= <- <-]].
    destruct (chunk_attempt position chunk_size w st) as [w2 [|st2]];
      [discriminate | apply IH].
Qed.

Lemma chunk_loop_done {V : Type} {client : ClobClient V}
    fuel position chunk_size (w : World V) st :
  Qgtb (remaining_size st) 0.1 = false →
  chunk_loop fuel position chunk_size w st = Some (w, Returned st).
Proof. intros H. destruct fuel; cbn; rewrite H; reflexivity. Qed.

Lemma chunk_loop_unfold {V : Type} {client : ClobClient V}
    fuel position chunk_size (w : World V) st :
  Qgtb (remaining_size st) 0.1 = true →
  chunk_loop (S fuel) position chunk_size w st =
  match chunk_attempt position chunk_size w st with
  | (w1, Raised) => Some (w1, Raised)
  | (w1, Returned st1) => chunk_loop fuel position chunk_size w1 st1
  end.
Proof. intros H. cbn. rewrite H. reflexivity. Qed.

Lemma chunk_attempt_not_accepted {V : Type} {client : ClobClient V}
    position chunk_size (w w1 : World V) st st1 :
  never_accepts client →
  chunk_attempt position chunk_size w st = (w1, Returned st1) →
  remaining_size st1 = remaining_size st.
Proof.
  intros Hnever. unfold chunk_attempt, place_order. cbv zeta.
  destruct (create_order (venue w) _) as [[signed|] v1]; [|discriminate].
  destruct (post_order v1 signed GTC) as [[result|] v2] eqn:Hpost.
  - rewrite (Hnever _ _ _ _ _ Hpost). by intros [= <- <-].
  - by intros [= <- <-].
Qed.

Lemma chunk_loop_not_accepted {V : Type} {client : ClobClient V}
    fuel position chunk_size (w w1 : World V) st st1 :
  never_accepts client →
  Qgtb (remaining_size st) 0.1 = true →
  chunk_loop fuel position chunk_size w st ≠ Some (w1, Returned st1).
Proof.
  intros Hnever. revert w st. induction fuel as [|fuel IH]; intros w st Hgt.
  - cbn. rewrite Hgt. discriminate.
  - rewrite chunk_loop_unfold by exact Hgt.
    destruct (chunk_attempt position chunk_size w st) as [w2 [|st2]] eqn:Hstep;
      [discriminate|].
    apply IH.
    by rewrite (chunk_attempt_not_accepted _ _ _ _ _ _ Hnever Hstep).
Qed.

(** With a venue that never accepts, a position above the dust threshold
    never gets a result: the loop keeps lowering the price and trying the
    same size. *)
Lemma never_accepted_no_result {V : Type} {client : ClobClient V}
    fuel position cfg (w w1 : World V) r :
  never_accepts client →
  0.1 < size position →
  execute_market_sell fuel position cfg w ≠ Some (w1, Returned r).
Proof.
  intros Hnever Hsize. unfold execute_market_sell.
  destruct (price_discovery position w) as [w2 price].
  destruct (chunk_loop fuel position _ w2 _) as [[w3 [|st]]|] eqn:Hloop;
    try discriminate.
  exfalso. revert Hloop. apply chunk_loop_not_accepted; [exact Hnever|].
  by apply Qgtb_true.
Qed.

Lemma rejecting_client_never_accepts bids : never_accepts (rejecting_client bids).
Proof. intros v signed order_type result v1 [= <- <-]. reflexivity. Qed.

(** C1.  Scenario B on the code: size 30, no bids, every order rejected.
    The executor keeps no rejection count and has no cap on retries: however
    much fuel the loop is given it is still running, so the block after the
    loop (the final sweep) is never reached and no result is returned. *)
Theorem rejecting_venue_loop_unbounded :
  ∀ fuel : nat,
    execute_market_sell (client := rejecting_client []) fuel
      position_B default_config empty_world = None.
Proof.
  intros fuel.
  destruct (execute_market_sell (client := rejecting_client []) fuel
              position_B default_config empty_world)
    as [[w1 [|r]]|] eqn:Hrun; [| |reflexivity].
  - exfalso. revert Hrun. unfold execute_market_sell.
    change (price_discovery position_B empty_world)
      with (empty_world, Qmax 0.001 (current_price position_B * 0.95)).
    cbv iota beta.
    generalize (initial_state position_B (Qmax 0.001 (current_price position_B * 0.95))).
    generalize empty_world.
    induction fuel as [|fuel IH]; intros w st; cbn [chunk_loop].
    + destruct (Qgtb (remaining_size st) 0.1); [discriminate|].
      destruct (final_sweep position_B w st). discriminate.
    + destruct (Qgtb (remaining_size st) 0.1).
      * unfold chunk_attempt, place_order. cbn. apply IH.
      * destruct (final_sweep position_B w st). discriminate.
  - exfalso. revert Hrun. apply never_accepted_no_result.
    + apply rejecting_client_never_accepts.
    + reflexivity.
Qed.

(** C3.  Size is neither created nor lost.  In every state the executor
    visits, the size ordered so far plus the size still to order is the
    position's size, and the size ordered so far is the total size of the
    orders the venue accepted.  A returned result reports as total size
    ordered the size of the accepted orders and as remaining size the
    position's size minus that total; a failure result, which has no remaining
    size entry, is returned only when no order was accepted and names the
    whole size. *)
Theorem size_conservation {V : Type} {client : ClobClient V}
    (position : Position) (w0 : World V) :
  (∀ w st, visits position w0 w st →
     total_filled st + remaining_size st == size position ∧
     ∃ new, calls w = calls w0 ++ new ∧ total_filled st == accepted_size new)
  ∧
  (∀ fuel cfg w1 r,
     execute_market_sell fuel position cfg w0 = Some (w1, Returned r) →
     ∃ new, calls w1 = calls w0 ++ new ∧
       match r with
       | ExecSuccess _ total remaining _ =>
           total == accepted_size new ∧
           remaining == size position - accepted_size new
       | ExecFailure _ attempted =>
           accepted_size new == 0 ∧ attempted = size position
       end).
Proof.
  split.
  - intros w st Hvis.
    destruct (visits_inv _ _ _ _ Hvis) as (new & Hcalls & Htotal & _ & Hsum & _).
    split; [exact Hsum|]. exists new. auto.
  - intros fuel cfg w1 r Hrun.
    apply execute_market_sell_returned in Hrun as (st & Hvis & -> & _).
    destruct (visits_inv _ _ _ _ Hvis) as (new & Hcalls & Htotal & Horders & Hsum & _).
    exists new. split; [exact Hcalls|]. unfold summary.
    destruct (orders_placed st) as [|x xs] eqn:Hplaced.
    + split; [|reflexivity]. apply accepted_size_none. by rewrite <- Horders.
    + split; [exact Htotal|]. rewrite Htotal. reflexivity.
Qed.

Lemma size_conservation_witness :
  ∃ new,
    [(order_A, Responded (mkPostResponse true "order"));
     (order_A, Responded (mkPostResponse true "order"))] = calls empty_world ++ new ∧
    100 == accepted_size new ∧ 0 == size position_A - accepted_size new.
Proof.
  exact (proj2 (size_conservation (client := accepting_client [0.38])
                  position_A empty_world)
           2%nat default_config
           (mkWorld ()
              [(order_A, Responded (mkPostResponse true "order"));
               (order_A, Responded (mkPostResponse true "order"))])
           (ExecSuccess 2 100 0
              [mkPostResponse true "order"; mkPostResponse true "order"])
           eq_refl).
Defined.

(** C6 as stated fails: the floor itself is a price the executor computes.
    With a best bid of 0.001 price discovery gives exactly 0.001, and a
    rejection at the floor reprices to 0.001 again. *)
Lemma working_price_reaches_floor :
  (price_discovery (client := rejecting_client [0.001]) position_B empty_world).2
    <= 0.001
  ∧ sell_price (reprice 0.95 (initial_state position_B 0.001)) <= 0.001.
Proof. split; vm_compute; discriminate. Qed.

(** C6, amended.  At every pricing step (price discovery, the reprice after a
    rejection or an exception, the final block) the price is at least 0.001,
    so it is never at or below 0: the working price of every visited state and
    the price of every order handed to the venue are at least 0.001. *)
Theorem working_price_floor {V : Type} {client : ClobClient V}
    (position : Position) (w0 : World V) :
  (∀ w1 price, price_discovery position w0 = (w1, price) →
     0.001 <= price ∧ 0 < price)
  ∧ (∀ factor st,
       0.001 <= sell_price (reprice factor st) ∧ 0 < sell_price (reprice factor st))
  ∧ (∀ w st, visits position w0 w st →
       0.001 <= sell_price st ∧ 0 < sell_price st)
  ∧ (∀ w st new, visits position w0 w st → calls w = calls w0 ++ new →
       Forall (λ c, 0.001 <= order_price c.1 ∧ 0 < order_price c.1) new)
  ∧ (∀ (w w1 : World V) st st1, final_sweep position w st = (w1, st1) →
       ∃ new, calls w1 = calls w ++ new ∧
         Forall (λ c, 0.001 <= order_price c.1 ∧ 0 < order_price c.1) new).
Proof.
  assert (Hpos : ∀ x : Q, 0.001 <= x → 0.001 <= x ∧ 0 < x).
  { intros x Hx. split; [exact Hx|].
    apply Qlt_le_trans with (y := 0.001); [reflexivity | exact Hx]. }
  split; [|split; [|split; [|split]]].
  - intros w1 price Hpd. apply Hpos.
    by apply price_discovery_calls in Hpd as [_ Hfloor].
  - intros factor st. apply Hpos, price_floor.
  - intros w st Hvis. apply Hpos.
    by destruct (visits_inv _ _ _ _ Hvis) as (new & _ & _ & _ & _ & Hprice & _).
  - intros w st new Hvis Hcalls.
    destruct (visits_inv _ _ _ _ Hvis) as (new' & Hcalls' & _ & _ & _ & _ & Hall).
    rewrite Hcalls in Hcalls'. apply app_inv_head in Hcalls' as ->.
    eapply Forall_impl; [exact Hall|]. intros c Hc. by apply Hpos.
  - intros w w1 st st1. unfold final_sweep.
    destruct (Qgtb (remaining_size st) 0.1).
    + destruct (place_order w _) as [w2 r] eqn:Hplace.
      apply place_order_calls in Hplace.
      assert (Hnew : ∃ new, calls w2 = calls w ++ new ∧
                Forall (λ c : OrderArgs * PlaceResult,
                          0.001 <= order_price c.1 ∧ 0 < order_price c.1) new).
      { eexists. split; [exact Hplace|].
        constructor; [|constructor]. apply Hpos, price_floor. }
      destruct r as [| |result]; try (intros [= <- <-]; exact Hnew).
      destruct (resp_success result); intros [= <- <-]; exact Hnew.
    + intros [= <- <-]. exists []. rewrite app_nil_r. split; [reflexivity | constructor].
Qed.

(** A returned result reports success exactly when the venue accepted
    at least one order of the attempt.  A success result counts and lists the
    accepted orders; a failure result carries the error text and the
    position's size as attempted size. *)
Lemma success_iff_order_accepted {V : Type} {client : ClobClient V}
    (fuel : nat) (position : Position) (cfg : StopLossConfig)
    (w0 w1 : World V) (r : ExecutionResult) :
  execute_market_sell fuel position cfg w0 = Some (w1, Returned r) →
  ∃ new, calls w1 = calls w0 ++ new ∧
    (result_success r = true ↔ ∃ c, c ∈ new ∧ is_accepted c.2 = true) ∧
    match r with
    | ExecSuccess n _ _ details =>
        details = accepted_results new ∧ n = length details ∧ (0 < n)%nat
    | ExecFailure error attempted =>
        error = "No orders could be placed" ∧ attempted = size position
    end.
Proof.
  intros Hrun.
  apply execute_market_sell_returned in Hrun as (st & Hvis & -> & _).
  destruct (visits_inv _ _ _ _ Hvis) as (new & Hcalls & _ & Horders & _).
  exists new. split; [exact Hcalls|]. unfold summary.
  destruct (orders_placed st) as [|x xs] eqn:Hplaced; cbn [result_success].
  - split; [|auto]. split; [discriminate|].
    intros (c & Hc & Hacc). symmetry in Horders.
    rewrite (proj1 (accepted_results_nil new) Horders c Hc) in Hacc. discriminate.
  - split.
    + split; [|reflexivity]. intros _.
      symmetry in Horders. eapply accepted_results_nonempty, Horders.
    + repeat split; [exact Horders | cbn; lia].
Qed.

(** After its one acceptance the first-only venue leaves the loop where it
    is: 50 are left, every further order is rejected. *)
Lemma first_only_stuck (bids : list Q) (fuel : nat)
    (log : list (OrderArgs * PlaceResult)) (st : ExecState) :
  remaining_size st = 50 →
  chunk_loop (client := first_only_client bids) fuel position_A 50
    (mkWorld true log) st = None.
Proof.
  revert log st. induction fuel as [|fuel IH]; intros log st Hrem.
  - cbn [chunk_loop]. rewrite Hrem. reflexivity.
  - rewrite chunk_loop_unfold by (rewrite Hrem; reflexivity).
    unfold chunk_attempt, place_order. cbn. apply IH. exact Hrem.
Qed.

(** C7.  Two attempts that get no result at all.  A venue that accepts the
    first order of scenario A (50 of 100 at 0.38) and rejects every later
    one: after the first pass one order is accepted and recorded, yet with
    any fuel the loop is still running, so no result with success = true is
    returned.  The venue of scenario B, which rejects everything: no order
    is accepted, and no result, in particular none with success = false and
    the attempted size, is returned either. *)
Theorem attempt_without_result :
  chunk_attempt (client := first_only_client [0.38]) position_A 50
    (mkWorld false []) (initial_state position_A 0.38) =
    (mkWorld true [(order_A, Responded (mkPostResponse true "order"))],
     Returned (mkExecState 0.38 50 50 [mkPostResponse true "order"]))
  ∧ (∀ fuel : nat,
       execute_market_sell (client := first_only_client [0.38]) fuel
         position_A default_config (mkWorld false []) = None)
  ∧ (∀ (fuel : nat) (w1 : World unit) (r : ExecutionResult),
       execute_market_sell (client := rejecting_client []) fuel
         position_B default_config empty_world ≠ Some (w1, Returned r)).
Proof.
  split; [reflexivity|]. split.
  - intros fuel. unfold execute_market_sell.
    change (price_discovery (client := first_only_client [0.38]) position_A
              (mkWorld false []))
      with (mkWorld false [] : World bool, 0.38).
    cbv iota beta.
    destruct fuel as [|fuel]; [reflexivity|].
    rewrite chunk_loop_unfold by reflexivity.
    change (chunk_attempt (client := first_only_client [0.38]) position_A
              (Qmin (size position_A) 50) (mkWorld false [])
              (initial_state position_A 0.38))
      with (mkWorld true [(order_A, Responded (mkPostResponse true "order"))],
            Returned (mkExecState 0.38 50 50 [mkPostResponse true "order"])).
    cbv iota beta.
    change (Qmin (size position_A) 50) with 50.
    rewrite first_only_stuck; reflexivity.
  - intros fuel w1 r. apply never_accepted_no_result.
    + apply rejecting_client_never_accepts.
    + reflexivity.
Qed.

(** A position at or below the dust threshold: no order is tried and the
    failure result is returned, whatever the venue would answer. *)
Example dust_position_fails :
  execute_market_sell (client := accepting_client [0.38]) 0
    (position_of "D" 0.1 0.40 0) default_config empty_world =
  Some (empty_world, Returned (ExecFailure "No orders could be placed" 0.1)).
Proof. reflexivity. Qed.


(** X1.  The block that places the final order is guarded by the negation
    of the condition under which the loop is left: whenever the loop ends
    normally the remaining size is at most 0.1, and the block after it hands
    no order to the venue and leaves the state as it is. *)
Theorem final_sweep_never_entered {V : Type} {client : ClobClient V}
    (fuel : nat) (position : Position) (chunk_size : Q)
    (w w1 : World V) (st st1 : ExecState) :
  chunk_loop fuel position chunk_size w st = Some (w1, Returned st1) →
  remaining_size st1 <= 0.1 ∧ final_sweep position w1 st1 = (w1, st1).
Proof.
  intros Hloop. apply chunk_loop_exit in Hloop.
  split; [by apply Qgtb_false | by apply final_sweep_skipped].
Qed.

Lemma final_sweep_never_entered_witness :
  0 <= 0.1 ∧
  final_sweep (client := accepting_client [0.38]) position_A
    (mkWorld ()
       [(order_A, Responded (mkPostResponse true "order"));
        (order_A, Responded (mkPostResponse true "order"))])
    (mkExecState 0.38 0 100 [mkPostResponse true "order"; mkPostResponse true "order"])
  = (mkWorld ()
       [(order_A, Responded (mkPostResponse true "order"));
        (order_A, Responded (mkPostResponse true "order"))],
     mkExecState 0.38 0 100 [mkPostResponse true "order"; mkPostResponse true "order"]).
Proof.
  exact (final_sweep_never_entered (client := accepting_client [0.38])
           2%nat position_A 50 empty_world _ (initial_state position_A 0.38) _
           eq_refl).
Defined.

(** What the block after the loop does when it is entered with more than
    0.1 left: it hands the venue exactly one order: a sell of the whole
    remaining size at max(0.001, current price * 0.50), which is
    current price * 0.50 whenever that is at least 0.001.  Whatever the
    venue answers, no second order follows: an accepted order is recorded
    and its size added to the total, any other answer leaves the state as it
    was, and the summary is computed from that state. *)
Lemma final_sweep_single_order {V : Type} {client : ClobClient V}
    (position : Position) (w w1 : World V) (st st1 : ExecState) :
  0.1 < remaining_size st →
  final_sweep position w st = (w1, st1) →
  ∃ r,
    calls w1 = calls w ++
      [({| order_price := Qmax 0.001 (current_price position * 0.50);
           order_size := remaining_size st;
           order_side := SELL;
           order_token_id := token_id position |}, r)] ∧
    (0.001 <= current_price position * 0.50 →
       Qmax 0.001 (current_price position * 0.50) == current_price position * 0.50) ∧
    match r with
    | Responded result =>
        if resp_success result then
          st1 = {| sell_price := sell_price st;
                   remaining_size := remaining_size st;
                   total_filled := total_filled st + remaining_size st;
                   orders_placed := orders_placed st ++ [result] |}
        else st1 = st
    | _ => st1 = st
    end.
Proof.
  intros Hgt. apply Qgtb_true in Hgt. unfold final_sweep. rewrite Hgt.
  destruct (place_order w _) as [w2 r] eqn:Hplace.
  apply place_order_calls in Hplace.
  pose proof (Q.max_r 0.001 (current_price position * 0.50)) as Hmax.
  destruct r as [| |result].
  - intros [= <- <-]. exists CreateRaised. auto.
  - intros [= <- <-]. exists PostRaised. auto.
  - destruct (resp_success result) eqn:Hs; intros [= <- <-];
      exists (Responded result); rewrite Hs; auto.
Qed.

(** C4.  Scenario B on the code: size 30, current price 0.40, no bids,
    every order rejected.  Every state the executor goes through is a state
    of the loop with the whole 30 still to sell and no order recorded: the
    loop condition holds in it, so the executor is never past the loop, and
    every order handed to the venue so far is a rejected order of the loop
    for 30.  The final order for 30 at 0.40 * 0.50 is never placed. *)
Theorem scenario_B_never_sweeps (w : World unit) (st : ExecState) :
  visits (client := rejecting_client []) position_B empty_world w st →
  remaining_size st = 30 ∧
  orders_placed st = [] ∧
  Qgtb (remaining_size st) 0.1 = true ∧
  Forall (λ c, order_size c.1 = 30 ∧ is_accepted c.2 = false) (calls w).
Proof.
  induction 1 as [w1 price Hpd | w st w1 st1 Hvis IH Hgt Hstep
                 | w st w1 st1 Hvis IH Hle Hsweep].
  - injection Hpd as <- <-. repeat split. constructor.
  - destruct IH as (Hrem & Hplaced & _ & Hall).
    revert Hstep. unfold chunk_attempt, place_order. cbn. rewrite Hrem.
    intros [= <- <-]. cbn. repeat split; try assumption.
    apply Forall_app. split; [exact Hall|].
    constructor; [|constructor]. split; reflexivity.
  - destruct IH as (_ & _ & Hgt & _). rewrite Hgt in Hle. discriminate.
Qed.

Lemma scenario_B_never_sweeps_witness :
  remaining_size (reprice 0.95 (initial_state position_B 0.3800)) = 30 ∧
  orders_placed (reprice 0.95 (initial_state position_B 0.3800)) = [] ∧
  Qgtb (remaining_size (reprice 0.95 (initial_state position_B 0.3800))) 0.1 = true ∧
  Forall (λ c, order_size c.1 = 30 ∧ is_accepted c.2 = false)
    [({| order_price := 0.3800; order_size := 30; order_side := SELL;
         order_token_id := "B" |}, Responded (mkPostResponse false "N/A"))].
Proof.
  apply (scenario_B_never_sweeps
           (mkWorld ()
              [({| order_price := 0.3800; order_size := 30; order_side := SELL;
                   order_token_id := "B" |}, Responded (mkPostResponse false "N/A"))])
           (reprice 0.95 (initial_state position_B 0.3800))).
  eapply visits_chunk.
  - apply visits_start. reflexivity.
  - reflexivity.
  - reflexivity.
Defined.

(** C10.  The configuration's [dry_run] flag is on by default.  With the
    flag on, executing a stop loss returns [True] at once: the venue state,
    the list of calls made to the venue and the execution log are what they
    were, for any position and any fuel, and a whole monitoring cycle changes
    nothing either.  A call that reached the venue or a record added to the
    log therefore shows that the flag was off. *)
Theorem dry_run_places_no_order {V : Type} {client : ClobClient V}
    (fuel : nat) (bot : Bot) (w : World V) :
  dry_run default_config = true
  ∧ (dry_run (config bot) = true →
       (∀ position, execute_stop_loss fuel bot position w = Some (true, bot, w)) ∧
       (∀ positions, run_monitoring_cycle fuel bot positions w = Some (bot, w)))
  ∧ (∀ position ok bot1 w1,
       execute_stop_loss fuel bot position w = Some (ok, bot1, w1) →
       calls w1 ≠ calls w ∨ stop_loss_log bot1 ≠ stop_loss_log bot →
       dry_run (config bot) = false).
Proof.
  split; [reflexivity|]. split.
  - intros Hdry.
    assert (Hone : ∀ w' position,
              execute_stop_loss fuel bot position w' = Some (true, bot, w')).
    { intros w' position. unfold execute_stop_loss. by rewrite Hdry. }
    split; [apply Hone|].
    intros positions. unfold run_monitoring_cycle.
    destruct positions as [|p ps]; [reflexivity|].
    induction (check_stop_loss_triggers (config bot) (p :: ps)) as [|t ts IH];
      [reflexivity|].
    cbn [execute_triggered]. rewrite Hone. exact IH.
  - intros position ok bot1 w1. unfold execute_stop_loss.
    destruct (dry_run (config bot)); [|reflexivity].
    intros [= <- <- <-] [H|H]; contradiction.
Qed.

Lemma dry_run_places_no_order_witness :
  (∀ position,
     execute_stop_loss (client := accepting_client [0.38]) 5
       (mkBot default_config false []) position empty_world =
     Some (true, mkBot default_config false [], empty_world)) ∧
  (∀ positions,
     run_monitoring_cycle (client := accepting_client [0.38]) 5
       (mkBot default_config false []) positions empty_world =
     Some (mkBot default_config false [], empty_world)).
Proof.
  exact (proj1 (proj2 (dry_run_places_no_order (client := accepting_client [0.38]) 5
                         (mkBot default_config false []) empty_world))
           eq_refl).
Defined.

(** With the flag off and a trading client, the same position is sold and the
    attempt is logged. *)
Example live_run_places_orders :
  ∃ bot1 w1,
    execute_stop_loss (client := accepting_client [0.38]) 2
      (mkBot live_config true []) position_A empty_world = Some (true, bot1, w1) ∧
    length (calls w1) = 2%nat ∧ length (stop_loss_log bot1) = 1%nat.
Proof. eexists _, _. split; [reflexivity|]. split; reflexivity. Qed.

(** X2.  The retry loop has no bound for any venue that never accepts: for a
    position above the dust threshold the executor, given any fuel, is
    either still in the loop or has been left by an exception of
    [create_order]; it never returns a result. *)
Theorem never_accepting_venue_runs_on {V : Type} {client : ClobClient V}
    (fuel : nat) (position : Position) (cfg : StopLossConfig) (w : World V) :
  never_accepts client →
  0.1 < size position →
  execute_market_sell fuel position cfg w = None ∨
  ∃ w1, execute_market_sell fuel position cfg w = Some (w1, Raised).
Proof.
  intros Hnever Hsize.
  destruct (execute_market_sell fuel position cfg w) as [[w1 [|r]]|] eqn:Hrun.
  - right. by exists w1.
  - exfalso. revert Hrun. by apply never_accepted_no_result.
  - by left.
Qed.

Lemma never_accepting_venue_runs_on_witness :
  execute_market_sell (client := rejecting_client [0.38]) 40
    position_A default_config empty_world = None ∨
  ∃ w1, execute_market_sell (client := rejecting_client [0.38]) 40
          position_A default_config empty_world = Some (w1, Raised).
Proof.
  apply (never_accepting_venue_runs_on (client := rejecting_client [0.38])
           40 position_A default_config empty_world).
  - apply rejecting_client_never_accepts.
  - reflexivity.
Defined.

Lemma visits_sizes {V : Type} {client : ClobClient V}
    position (w0 w : World V) st :
  0 <= size position →
  visits position w0 w st →
  0 <= remaining_size st ∧
  ∃ new, calls w = calls w0 ++ new ∧
    Forall (λ c, order_size c.1 <= 50 ∧ order_size c.1 <= size position) new.
Proof.
  intros Hsize.
  induction 1 as [w1 price Hpd | w st w1 st1 _ IH Hgt Hstep | w st w1 st1 _ IH Hle Hsweep].
  - apply price_discovery_calls in Hpd as [Hcalls _].
    split; [exact Hsize|]. exists []. rewrite Hcalls, app_nil_r. auto.
  - destruct IH as (Hrem & new & Hcalls & Hall).
    apply chunk_attempt_cases in Hstep. cbv zeta in Hstep.
    destruct Hstep as (r & Hcalls1 & Hr).
    pose proof (Q.le_min_l (remaining_size st) (Qmin (size position) 50)) as Hchunk.
    pose proof (Q.le_min_r (remaining_size st) (Qmin (size position) 50)) as Hcap.
    pose proof (Q.le_min_l (size position) 50) as Hcap1.
    pose proof (Q.le_min_r (size position) 50) as Hcap2.
    split.
    + destruct r as [| |result]; [discriminate | by injection Hr as -> |].
      destruct (resp_success result); injection Hr as ->; cbn; [lra | exact Hrem].
    + eexists. split; [by rewrite Hcalls1, Hcalls, <- app_assoc|].
      apply Forall_app. split; [exact Hall|].
      constructor; [|constructor]. cbn. split; lra.
  - rewrite final_sweep_skipped in Hsweep by exact Hle.
    injection Hsweep as <- <-. exact IH.
Qed.

(** X3.  The executor never orders more than the position holds: in every
    visited state the accepted orders add up to at most the position's size,
    and every order handed to the venue is for at most 50 units and at most
    the position's size. *)
Theorem never_oversells {V : Type} {client : ClobClient V}
    (position : Position) (w0 w : World V) (st : ExecState) :
  0 <= size position →
  visits position w0 w st →
  ∃ new, calls w = calls w0 ++ new ∧
    accepted_size new <= size position ∧
    Forall (λ c, order_size c.1 <= 50 ∧ order_size c.1 <= size position) new.
Proof.
  intros Hsize Hvis.
  destruct (visits_sizes _ _ _ _ Hsize Hvis) as (Hrem & new & Hcalls & Hall).
  destruct (visits_inv _ _ _ _ Hvis) as (new' & Hcalls' & Htotal & _ & Hsum & _).
  rewrite Hcalls in Hcalls'. apply app_inv_head in Hcalls' as <-.
  exists new. repeat split; auto. lra.
Qed.

Lemma never_oversells_witness :
  ∃ new,
    [(order_A, Responded (mkPostResponse true "order"))] = calls empty_world ++ new ∧
    accepted_size new <= size position_A ∧
    Forall (λ c, order_size c.1 <= 50 ∧ order_size c.1 <= size position_A) new.
Proof.
  refine (never_oversells (client := accepting_client [0.38]) position_A empty_world
            (mkWorld () [(order_A, Responded (mkPostResponse true "order"))])
            (mkExecState 0.38 50 50 [mkPostResponse true "order"]) _ _).
  - discriminate.
  - eapply visits_chunk.
    + apply (visits_start position_A empty_world empty_world 0.38). reflexivity.
    + reflexivity.
    + reflexivity.
Defined.

(** ** Snapshot records *)

Lemma to_float_None field default_value :
  to_float field default_value = None ↔ field = Malformed.
Proof. destruct field; cbn; split; congruence. Qed.

Lemma from_data_api_Some raw p :
  from_data_api raw = Some p →
  ∃ sz cv cp iv,
    to_float (raw_size raw) 0 = Some sz ∧
    to_float (raw_currentValue raw) 0 = Some cv ∧
    to_float (raw_curPrice raw) 0 = Some cp ∧
    to_float (raw_initialValue raw) cv = Some iv ∧
    p = {| token_id := default "" (raw_asset raw);
           market_name := default "Unknown Market" (raw_title raw);
           outcome := default "Unknown" (raw_outcome raw);
           size := sz;
           current_value := cv;
           current_price := cp;
           initial_value := iv;
           pnl := cv - iv;
           pnl_percentage := if Qgtb iv 0 then (cv - iv) / iv * 100 else 0 |}.
Proof.
  unfold from_data_api.
  destruct (to_float (raw_size raw) 0) as [sz|]; [|discriminate].
  destruct (to_float (raw_currentValue raw) 0) as [cv|]; [|discriminate].
  destruct (to_float (raw_curPrice raw) 0) as [cp|]; [|discriminate].
  cbn. destruct (to_float (raw_initialValue raw) cv) as [iv|] eqn:Hiv; [|discriminate].
  cbn. intros [= <-]. exists sz, cv, cp, iv. auto.
Qed.

(** X4.  [from_data_api] raises exactly when one of the four numeric
    entries it reads (size, currentValue, curPrice, initialValue) is present
    and cannot be read as a number; absent entries never make it fail. *)
Theorem from_data_api_fails_iff (raw : RawPosition) :
  from_data_api raw = None ↔
  raw_size raw = Malformed ∨ raw_currentValue raw = Malformed ∨
  raw_curPrice raw = Malformed ∨ raw_initialValue raw = Malformed.
Proof.
  unfold from_data_api.
  destruct (raw_size raw) as [|sz|]; cbn;
    destruct (raw_currentValue raw) as [|cv|]; cbn;
    destruct (raw_curPrice raw) as [|cp|]; cbn;
    destruct (raw_initialValue raw) as [|iv|]; cbn;
    split; intros H; try discriminate; try reflexivity; auto;
    repeat match goal with H : _ ∨ _ |- _ => destruct H end; discriminate.
Qed.

Lemma percentage_bound (cv iv : Q) :
  0 < iv → 0 <= cv → -100 <= (cv - iv) / iv * 100.
Proof.
  intros Hiv Hcv.
  assert (Hquot : 0 <= cv / iv).
  { apply Qle_shift_div_l; [exact Hiv | lra]. }
  assert (Heq : (cv - iv) / iv * 100 == cv / iv * 100 - 100).
  { field. intros H0. rewrite H0 in Hiv. revert Hiv. apply Qlt_irrefl. }
  rewrite Heq. lra.
Qed.



(** X6.  A parsed record without a positive initial value (the entry is
    absent, zero or negative) has a P&L percentage of 0, so with a positive
    stop-loss percentage it is never triggered by its loss: it is triggered
    exactly when the price condition holds. *)
Theorem no_cost_basis_only_price_triggered (cfg : StopLossConfig)
    (raw : RawPosition) (p : Position) :
  from_data_api raw = Some p →
  raw_initialValue raw = Missing ∨ initial_value p <= 0 →
  0 < stop_loss_percentage cfg →
  percentage_triggered cfg p = false ∧
  ((evaluate cfg p).1 = true ↔ price_triggered cfg p = true).
Proof.
  intros Hparse Hbasis Hstop.
  assert (Hzero : pnl_percentage p == 0).
  { apply from_data_api_Some in Hparse as (sz & cv & cp & iv & _ & _ & _ & Hiv & ->).
    cbn in *. destruct Hbasis as [Hm|Hl].
    - rewrite Hm in Hiv. injection Hiv as <-.
      destruct (Qgtb cv 0) eqn:Hgt; [|reflexivity].
      apply Qgtb_true in Hgt. field.
      intros H0. rewrite H0 in Hgt. revert Hgt. apply Qlt_irrefl.
    - apply Qgtb_false in Hl. by rewrite Hl. }
  assert (Hpct : percentage_triggered cfg p = false).
  { apply Qle_bool_false. rewrite Hzero. lra. }
  split; [exact Hpct|].
  unfold evaluate. rewrite Hpct. cbn.
  destruct (price_triggered cfg p); cbn; split; congruence.
Qed.

Lemma no_cost_basis_only_price_triggered_witness :
  let p := mkPosition "" "Unknown Market" "Unknown" 10 5 0.5 5 (5 - 5)
             ((5 - 5) / 5 * 100) in
  percentage_triggered default_config p = false ∧
  ((evaluate default_config p).1 = true ↔ price_triggered default_config p = true).
Proof.
  cbv zeta.
  apply (no_cost_basis_only_price_triggered default_config
           (mkRawPosition None None None (Number 10) (Number 5) (Number 0.5) Missing)).
  - reflexivity.
  - left. reflexivity.
  - reflexivity.
Defined.

Lemma parse_positions_app cfg raws1 raws2 :
  parse_positions cfg (raws1 ++ raws2) =
  parse_positions cfg raws1 ++ parse_positions cfg raws2.
Proof.
  induction raws1 as [|raw rest IH]; [reflexivity|]. cbn.
  destruct (from_data_api raw) as [p|]; [|exact IH].
  destruct (Qle_bool (min_position_value cfg) (current_value p)); [|exact IH].
  cbn. by rewrite IH.
Qed.

Lemma parse_positions_elem cfg raws p :
  p ∈ parse_positions cfg raws ↔
  ∃ raw, raw ∈ raws ∧ from_data_api raw = Some p ∧
         min_position_value cfg <= current_value p.
Proof.
  induction raws as [|raw rest IH]; cbn.
  - split; [intros H; inversion H | intros (raw & H & _); inversion H].
  - assert (Hrest : p ∈ parse_positions cfg rest →
             ∃ raw0, raw0 ∈ raw :: rest ∧ from_data_api raw0 = Some p ∧
                     min_position_value cfg <= current_value p).
    { intros H. apply IH in H as (raw0 & Hin & Hp & Hle).
      exists raw0. split; [by right | auto]. }
    destruct (from_data_api raw) as [q|] eqn:Hq.
    + destruct (Qle_bool (min_position_value cfg) (current_value q)) eqn:Hle.
      * rewrite elem_of_cons. split.
        -- intros [->|H]; [|by apply Hrest].
           exists raw. split; [by left|]. split; [exact Hq | by apply Qle_bool_iff].
        -- intros (raw0 & Hin & Hp & Hle0).
           apply elem_of_cons in Hin as [->|Hin].
           ++ left. congruence.
           ++ right. apply IH. eauto.
      * split; [exact Hrest|].
        intros (raw0 & Hin & Hp & Hle0).
        apply elem_of_cons in Hin as [->|Hin]; [|apply IH; eauto].
        exfalso. rewrite Hq in Hp. injection Hp as ->.
        apply Qle_bool_iff in Hle0. congruence.
    + split; [exact Hrest|].
      intros (raw0 & Hin & Hp & Hle0).
      apply elem_of_cons in Hin as [->|Hin]; [congruence | apply IH; eauto].
Qed.

Lemma parse_positions_length cfg raws :
  (length (parse_positions cfg raws) ≤ length raws)%nat.
Proof.
  induction raws as [|raw rest IH]; cbn; [lia|].
  destruct (from_data_api raw) as [p|]; [|lia].
  destruct (Qle_bool (min_position_value cfg) (current_value p)); cbn; lia.
Qed.

(** X7.  When [fetch_positions] returns, a user address is configured, the
    request gave a list of records, and the positions returned are exactly
    the records that parse and whose current value is at least the minimum
    position value; there are never more positions than records. *)
Theorem fetched_positions_meet_threshold (user_address : string)
    (cfg : StopLossConfig) (response : option (list RawPosition))
    (positions : list Position) :
  fetch_positions user_address cfg response = Some positions →
  user_address ≠ "" ∧
  ∃ raw_positions,
    response = Some raw_positions ∧
    (length positions ≤ length raw_positions)%nat ∧
    ∀ p, p ∈ positions ↔
         ∃ raw, raw ∈ raw_positions ∧ from_data_api raw = Some p ∧
                min_position_value cfg <= current_value p.
Proof.
  unfold fetch_positions. case_bool_decide as Haddr; [discriminate|].
  destruct response as [raws|]; [|discriminate].
  intros [= <-]. split; [exact Haddr|]. exists raws.
  split; [reflexivity|]. split; [apply parse_positions_length|].
  intros p. apply parse_positions_elem.
Qed.

Lemma fetched_positions_meet_threshold_witness :
  "0xabc" ≠ "" ∧
  ∃ raw_positions,
    Some [mkRawPosition None None None (Number 10) (Number 5) (Number 0.5) Missing;
          mkRawPosition None None None Malformed (Number 5) (Number 0.5) Missing] =
      Some raw_positions ∧
    (length [mkPosition "" "Unknown Market" "Unknown" 10 5 0.5 5 (5 - 5)
               ((5 - 5) / 5 * 100)] ≤ length raw_positions)%nat ∧
    ∀ p, p ∈ [mkPosition "" "Unknown Market" "Unknown" 10 5 0.5 5 (5 - 5)
               ((5 - 5) / 5 * 100)] ↔
         ∃ raw, raw ∈ raw_positions ∧ from_data_api raw = Some p ∧
                min_position_value default_config <= current_value p.
Proof.
  exact (fetched_positions_meet_threshold "0xabc" default_config
           (Some [mkRawPosition None None None (Number 10) (Number 5) (Number 0.5) Missing;
                  mkRawPosition None None None Malformed (Number 5) (Number 0.5) Missing])
           _ eq_refl).
Defined.

(** X8.  A record that cannot be parsed is skipped and changes nothing
    else: the positions obtained from a response are those obtained from the
    response without that record, in the same order. *)
Theorem malformed_record_skipped (cfg : StopLossConfig)
    (before after : list RawPosition) (raw : RawPosition) :
  from_data_api raw = None →
  parse_positions cfg (before ++ raw :: after) =
  parse_positions cfg (before ++ after).
Proof.
  intros Hbad. rewrite !parse_positions_app. cbn. by rewrite Hbad.
Qed.

Lemma malformed_record_skipped_witness :
  parse_positions default_config
    ([mkRawPosition None None None (Number 10) (Number 5) (Number 0.5) Missing] ++
     mkRawPosition None None None Malformed (Number 5) (Number 0.5) Missing ::
     [mkRawPosition (Some "t") None None (Number 3) (Number 2) (Number 0.5) (Number 4)]) =
  parse_positions default_config
    ([mkRawPosition None None None (Number 10) (Number 5) (Number 0.5) Missing] ++
     [mkRawPosition (Some "t") None None (Number 3) (Number 2) (Number 0.5) (Number 4)]).
Proof.
  apply (malformed_record_skipped default_config
           [mkRawPosition None None None (Number 10) (Number 5) (Number 0.5) Missing]
           [mkRawPosition (Some "t") None None (Number 3) (Number 2) (Number 0.5) (Number 4)]
           (mkRawPosition None None None Malformed (Number 5) (Number 0.5) Missing)).
  reflexivity.
Defined.

(** X9.  With a minimum position value that is not negative, a stop-loss
    percentage above 100 never fires on a fetched position: such a position
    has a current value that is not negative, so its P&L percentage is at
    least -100, which is above the threshold. *)
Theorem loss_above_full_never_fires (cfg : StopLossConfig)
    (raw_positions : list RawPosition) (p : Position) :
  p ∈ parse_positions cfg raw_positions →
  0 <= min_position_value cfg →
  100 < stop_loss_percentage cfg →
  percentage_triggered cfg p = false.
Proof.
  intros Hin Hmin Hstop.
  apply parse_positions_elem in Hin as (raw & _ & Hparse & Hle).
  apply from_data_api_Some in Hparse as (sz & cv & cp & iv & _ & _ & _ & _ & ->).
  cbn in Hle. apply Qle_bool_false. cbn.
  destruct (Qgtb iv 0) eqn:Hgt.
  - apply Qgtb_true in Hgt.
    assert (Hbound : -100 <= (cv - iv) / iv * 100).
    { apply percentage_bound; [exact Hgt | lra]. }
    lra.
  - lra.
Qed.

Lemma loss_above_full_never_fires_witness :
  percentage_triggered (set_stop_loss_percentage 150 default_config)
    (mkPosition "t" "Unknown Market" "Unknown" 3 2 0.5 4 (2 - 4) ((2 - 4) / 4 * 100))
  = false.
Proof.
  apply (loss_above_full_never_fires (set_stop_loss_percentage 150 default_config)
           [mkRawPosition (Some "t") None None (Number 3) (Number 2) (Number 0.5) (Number 4)]).
  - apply list_elem_of_singleton. reflexivity.
  - discriminate.
  - reflexivity.
Defined.

(** X10.  Without a user address, or when the request fails, the bot sees
    an empty snapshot, and a monitoring cycle on it does nothing at all: no
    call to the venue and no log record, also with dry run off. *)
Theorem no_snapshot_no_action {V : Type} {client : ClobClient V}
    (fuel : nat) (bot : Bot) (w : World V)
    (user_address : string) (response : option (list RawPosition)) :
  user_address = "" ∨ response = None →
  fetch_positions user_address (config bot) response = None ∧
  fetch_current_positions user_address (config bot) response = [] ∧
  run_monitoring_cycle fuel bot
    (fetch_current_positions user_address (config bot) response) w = Some (bot, w).
Proof.
  intros Hwhy.
  assert (Hnone : fetch_positions user_address (config bot) response = None).
  { unfold fetch_positions. destruct Hwhy as [->| ->].
    - reflexivity.
    - by case_bool_decide. }
  unfold fetch_current_positions. rewrite Hnone. auto.
Qed.

Lemma no_snapshot_no_action_witness :
  fetch_positions "" live_config (Some []) = None ∧
  fetch_current_positions "" live_config (Some []) = [] ∧
  run_monitoring_cycle (client := accepting_client [0.38]) 5
    (mkBot live_config true [])
    (fetch_current_positions "" live_config (Some [])) empty_world =
  Some (mkBot live_config true [], empty_world).
Proof.
  apply (no_snapshot_no_action (client := accepting_client [0.38]) 5
           (mkBot live_config true []) empty_world "" (Some [])).
  left. reflexivity.
Defined.

(** ** The summary table and the filter *)

Lemma filter_agree {A : Type} (P Q : A → Prop)
    `{∀ x, Decision (P x)} `{∀ x, Decision (Q x)} (l : list A) :
  (∀ x, x ∈ l → (P x ↔ Q x)) → filter P l = filter Q l.
Proof.
  induction l as [|x l IH]; intros Hagree; [reflexivity|].
  rewrite !filter_cons.
  assert (Hx : P x ↔ Q x) by (apply Hagree; by left).
  assert (Hl : filter P l = filter Q l).
  { apply IH. intros y Hy. apply Hagree. by right. }
  destruct (decide (P x)) as [HP|HP]; destruct (decide (Q x)) as [HQ|HQ];
    rewrite ?Hl; tauto.
Qed.

Lemma filter_keeps_all {A : Type} (P : A → Prop) `{∀ x, Decision (P x)} (l : list A) :
  (∀ x, P x) → filter P l = l.
Proof.
  intros HP. induction l as [|x l IH]; [reflexivity|].
  by rewrite filter_cons_True, IH.
Qed.

Lemma filter_keeps_none {A : Type} (P : A → Prop) `{∀ x, Decision (P x)} (l : list A) :
  (∀ x, ¬ P x) → filter P l = [].
Proof.
  intros HP. induction l as [|x l IH]; [reflexivity|].
  by rewrite filter_cons_False.
Qed.

Lemma filter_monitored_as_filter cfg positions :
  filter_monitored_positions cfg positions =
  filter (λ pos, monitors cfg pos = true) positions.
Proof.
  unfold filter_monitored_positions, monitors.
  destruct (bool_decide (selection_mode cfg = "all")); cbn.
  - symmetry. apply filter_keeps_all. by intros x.
  - destruct (bool_decide (selection_mode cfg = "selected")); cbn.
    + destruct (no_selection cfg); cbn.
      * symmetry. apply filter_keeps_none. by intros x.
      * apply filter_agree. intros x _. by rewrite bool_decide_eq_true.
    + assert (H : [] = filter (λ _ : Position, false = true) positions).
      { symmetry. apply filter_keeps_none. by intros x. }
      by destruct (bool_decide (selection_mode cfg = "none")).
Qed.

(** In every mode, a position of the snapshot is kept by the filter exactly
    when its token id is the token id of a monitored position. *)
Lemma monitored_by_token cfg positions pos :
  pos ∈ positions →
  (token_id pos ∈
     (list_to_set (token_id <$> filter_monitored_positions cfg positions) : gset string)
   ↔ monitors cfg pos = true).
Proof.
  intros Hin. rewrite elem_of_list_to_set, list_elem_of_fmap.
  rewrite filter_monitored_as_filter. split.
  - intros (q & Htoken & Hq). apply list_elem_of_filter in Hq as [Hq _].
    revert Hq. unfold monitors. by rewrite Htoken.
  - intros Hmon. exists pos. split; [reflexivity|]. by apply list_elem_of_filter.
Qed.

Lemma evaluate_decision cfg pos :
  (evaluate cfg pos).1 = percentage_triggered cfg pos || price_triggered cfg pos.
Proof. unfold evaluate. by destruct (_ || _). Qed.

Lemma summary_row_flags cfg positions pos :
  pos ∈ positions →
  let row :=
    summary_row cfg
      (list_to_set (token_id <$> filter_monitored_positions cfg positions)) pos in
  row_position row = pos ∧
  row_monitored row = monitors cfg pos ∧
  row_stop_loss row = monitors cfg pos && (evaluate cfg pos).1.
Proof.
  intros Hin. cbv zeta.
  pose proof (monitored_by_token cfg positions pos Hin) as Htoken.
  unfold summary_row. cbn.
  assert (Hmon : bool_decide
            (token_id pos ∈
               (list_to_set (token_id <$> filter_monitored_positions cfg positions)
                : gset string)) = monitors cfg pos).
  { destruct (monitors cfg pos).
    - apply bool_decide_eq_true. by apply Htoken.
    - apply bool_decide_eq_false. intros H. apply Htoken in H. discriminate. }
  rewrite Hmon, evaluate_decision. unfold percentage_triggered, price_triggered.
  split; [reflexivity|]. split; [reflexivity|].
  by destruct (monitors cfg pos).
Qed.

Lemma summary_rows_filter cfg positions (flag : SummaryRow → bool) (keep : Position → bool)
    (l : list Position) :
  (∀ pos, pos ∈ l → pos ∈ positions) →
  (∀ pos, pos ∈ positions →
     flag (summary_row cfg
             (list_to_set (token_id <$> filter_monitored_positions cfg positions)) pos)
     = keep pos) →
  row_position <$>
    filter (λ r, flag r = true)
      (summary_row cfg
         (list_to_set (token_id <$> filter_monitored_positions cfg positions)) <$> l)
  = filter (λ pos, keep pos = true) l.
Proof.
  intros Hsub Hflag. induction l as [|x l IH]; [reflexivity|].
  assert (Hx : x ∈ positions) by (apply Hsub; by left).
  assert (IH' := IH (λ pos Hpos, Hsub pos (list_elem_of_further _ _ _ Hpos))).
  rewrite fmap_cons, !filter_cons, (Hflag x Hx).
  destruct (keep x); cbn.
  - rewrite decide_True by reflexivity. cbn. by rewrite IH'.
  - rewrite decide_False by discriminate. exact IH'.
Qed.

(** X11.  The table of [print_positions_summary] shows what the cycle
    acts on: it has one row per position of the snapshot, the rows marked as
    monitored are exactly the positions the filter keeps, and the rows marked
    "STOP LOSS" are exactly the positions [check_stop_loss_triggers] returns,
    in the same order. *)
Theorem summary_agrees_with_triggers (cfg : StopLossConfig) (positions : list Position) :
  let rows := (print_positions_summary cfg positions).1.1 in
  row_position <$> rows = positions ∧
  row_position <$> filter (λ r, row_monitored r = true) rows =
    filter_monitored_positions cfg positions ∧
  row_position <$> filter (λ r, row_stop_loss r = true) rows =
    check_stop_loss_triggers cfg positions.
Proof.
  cbv zeta. unfold print_positions_summary. cbn [fst]. split; [|split].
  - rewrite <- list_fmap_compose.
    generalize (list_to_set (token_id <$> filter_monitored_positions cfg positions)
                : gset string).
    intros ids. induction positions as [|x l IH]; [reflexivity|].
    rewrite fmap_cons. f_equal. exact IH.
  - rewrite (summary_rows_filter cfg positions row_monitored (monitors cfg)).
    + symmetry. apply filter_monitored_as_filter.
    + auto.
    + intros pos Hpos. by destruct (summary_row_flags cfg positions pos Hpos) as (_ & ? & _).
  - rewrite (summary_rows_filter cfg positions row_stop_loss
               (λ pos, monitors cfg pos && (evaluate cfg pos).1)).
    + unfold check_stop_loss_triggers.
      rewrite scan_triggers_filter, filter_monitored_as_filter, list_filter_filter.
      apply filter_agree. intros pos _. rewrite andb_true_iff. tauto.
    + auto.
    + intros pos Hpos. by destruct (summary_row_flags cfg positions pos Hpos) as (_ & _ & ?).
Qed.

Lemma intersection_empty_l (T : gset string) : (∅ : gset string) ∩ T = ∅.
Proof.
  apply set_eq. intros x. rewrite elem_of_intersection, elem_of_empty. tauto.
Qed.

Lemma intersection_empty_r (sel : gset string) : sel ∩ (∅ : gset string) = ∅.
Proof.
  apply set_eq. intros x. rewrite elem_of_intersection, elem_of_empty. tauto.
Qed.

Lemma intersection_add_selected (sel T : gset string) t :
  t ∈ sel → sel ∩ ({[t]} ∪ T) = {[t]} ∪ (sel ∩ T).
Proof.
  intros Hin. apply set_eq. intros x.
  rewrite !elem_of_intersection, !elem_of_union, elem_of_intersection,
    elem_of_singleton.
  split; [tauto|]. intros [->|[? ?]]; tauto.
Qed.

Lemma intersection_add_unselected (sel T : gset string) t :
  t ∉ sel → sel ∩ ({[t]} ∪ T) = sel ∩ T.
Proof.
  intros Hout. apply set_eq. intros x.
  rewrite !elem_of_intersection, elem_of_union, elem_of_singleton.
  split; [|tauto]. intros [Hx [->|?]]; [contradiction | tauto].
Qed.

Lemma selected_in_snapshot_count (sel : gset string) (positions : list Position) :
  NoDup (token_id <$> positions) →
  length (filter (λ pos, token_id pos ∈ sel) positions) =
  stdpp.base.size (sel ∩ list_to_set (token_id <$> positions)).
Proof.
  induction positions as [|p ps IH]; intros Hdup.
  - cbn. by rewrite intersection_empty_r, size_empty.
  - rewrite fmap_cons in Hdup. apply NoDup_cons in Hdup as [Hfresh Hdup].
    rewrite fmap_cons, list_to_set_cons, filter_cons.
    destruct (decide (token_id p ∈ sel)) as [Hin|Hout].
    + rewrite intersection_add_selected by exact Hin.
      rewrite size_union, size_singleton; [cbn; by rewrite IH|].
      apply disjoint_singleton_l. rewrite elem_of_intersection, elem_of_list_to_set.
      tauto.
    + rewrite intersection_add_unselected by exact Hout.
      by apply IH.
Qed.

Lemma size_split (sel T : gset string) :
  stdpp.base.size sel = (stdpp.base.size (sel ∩ T) + stdpp.base.size (sel ∖ T))%nat.
Proof.
  rewrite <- size_union.
  - f_equal. apply set_eq. intros x.
    rewrite elem_of_union, elem_of_intersection, elem_of_difference.
    destruct (decide (x ∈ T)); tauto.
  - apply elem_of_disjoint. intros x.
    rewrite elem_of_intersection, elem_of_difference. tauto.
Qed.

(** X12.  The count in the warning of the filter, mode "selected": when the
    positions of the snapshot have distinct token ids, the count is exactly
    the number of selected ids that no position of the snapshot carries, so
    the warning appears exactly when a selected position is missing. *)
Theorem missing_count_exact (cfg : StopLossConfig) (positions : list Position) :
  selection_mode cfg = "selected" →
  NoDup (token_id <$> positions) →
  missing_count cfg positions =
  Z.of_nat (stdpp.base.size
              (selected_positions cfg ∖ list_to_set (token_id <$> positions))).
Proof.
  intros Hmode Hdup. unfold missing_count.
  assert (Hlen : length (filter_monitored_positions cfg positions) =
                 stdpp.base.size
                   (selected_positions cfg ∩ list_to_set (token_id <$> positions))).
  { unfold filter_monitored_positions, no_selection.
    case_bool_decide as Hall; [rewrite Hmode in Hall; discriminate|].
    case_bool_decide as Hsel; [|contradiction].
    case_bool_decide as Hempty; [|by apply selected_in_snapshot_count].
    by rewrite Hempty, intersection_empty_l, size_empty. }
  rewrite Hlen,
    (size_split (selected_positions cfg) (list_to_set (token_id <$> positions))).
  lia.
Qed.

Lemma missing_count_exact_witness :
  missing_count
    (set_selected_positions {["A"; "Z"]} selected_nothing) [position_A; position_B] =
  Z.of_nat (stdpp.base.size
              (selected_positions
                 (set_selected_positions {["A"; "Z"]} selected_nothing) ∖
               list_to_set (token_id <$> [position_A; position_B]))).
Proof.
  apply (missing_count_exact
           (set_selected_positions {["A"; "Z"]} selected_nothing)
           [position_A; position_B]).
  - reflexivity.
  - cbn. apply NoDup_cons. split; [|apply NoDup_singleton].
    rewrite list_elem_of_singleton. discriminate.
Defined.

(** ** The selection file and the selection dialogue *)

(** X13.  What [save_selected_positions] writes, [load_selected_positions]
    reads back unchanged, and [main] starts from it: with a non-empty saved
    selection in mode "selected" with exactly that selection, with an empty
    one in the default configuration, mode "none". *)
Theorem selection_round_trip (selected : gset string) :
  load_selected_positions (save_selected_positions selected Written) = selected ∧
  (selected ≠ ∅ →
     menu_config (menu_start (save_selected_positions selected Written)) =
     set_selection_mode "selected" (set_selected_positions selected default_config)) ∧
  (selected = ∅ →
     menu_config (menu_start (save_selected_positions selected Written)) =
     default_config).
Proof.
  assert (Hload : load_selected_positions (save_selected_positions selected Written)
                  = selected).
  { cbn. apply list_to_set_elements_L. }
  split; [exact Hload|]. unfold menu_start. rewrite Hload.
  split; intros Hsel; case_bool_decide; try contradiction; reflexivity.
Qed.

Lemma position_map_lookup_Some positions num p :
  position_map_lookup positions num = Some p ↔
  (1 ≤ num ≤ Z.of_nat (length positions))%Z ∧
  positions !! Z.to_nat (num - 1) = Some p.
Proof.
  unfold position_map_lookup. case_bool_decide as Hlow.
  - split; [|tauto]. intros Hp. split; [|exact Hp].
    apply lookup_lt_Some in Hp. lia.
  - split; [discriminate | lia].
Qed.

Lemma numbers_selection_elem positions numbers t :
  t ∈ numbers_selection positions numbers ↔
  ∃ num p, num ∈ numbers ∧ (1 ≤ num ≤ Z.of_nat (length positions))%Z ∧
           positions !! Z.to_nat (num - 1) = Some p ∧ token_id p = t.
Proof.
  unfold numbers_selection.
  rewrite elem_of_list_to_set, list_elem_of_fmap. split.
  - intros (p & -> & Hp). apply list_elem_of_omap in Hp as (num & Hnum & Hlookup).
    apply position_map_lookup_Some in Hlookup as [Hrange Hlookup].
    exists num, p. auto.
  - intros (num & p & Hnum & Hrange & Hlookup & <-).
    exists p. split; [reflexivity|]. apply list_elem_of_omap.
    exists num. split; [exact Hnum|]. by apply position_map_lookup_Some.
Qed.

Lemma selection_loop_within positions inputs current_selected t :
  t ∈ selection_loop positions current_selected inputs →
  t ∈ current_selected ∨ ∃ p, p ∈ positions ∧ token_id p = t.
Proof.
  revert current_selected.
  induction inputs as [|input rest IH]; intros current_selected; cbn; [auto|].
  destruct input as [| | | |numbers|]; auto.
  - intros H. apply IH in H as [H|H]; [|auto].
    right. apply elem_of_list_to_set, list_elem_of_fmap in H as (p & -> & Hp). eauto.
  - intros H. apply IH in H as [H|H]; [|auto]. by apply elem_of_empty in H.
  - case_bool_decide as Hempty; [apply IH|].
    intros H. apply IH in H as [H|H]; [|auto].
    right. apply numbers_selection_elem in H as (num & p & _ & _ & Hlookup & <-).
    exists p. split; [|reflexivity]. eapply list_elem_of_lookup_2, Hlookup.
Qed.

(** X14.  The selection dialogue never invents a token id: whatever is
    typed, every id of the selection it returns was selected before or belongs
    to a position of the snapshot shown.  With an empty snapshot nothing is
    read and the selection is returned as it was. *)
Theorem selection_within_snapshot (positions : list Position)
    (current_selected : gset string) (inputs : list SelectionInput) :
  (∀ t, t ∈ interactive_position_selection positions current_selected inputs →
        t ∈ current_selected ∨ ∃ p, p ∈ positions ∧ token_id p = t) ∧
  (positions = [] →
     interactive_position_selection positions current_selected inputs = current_selected).
Proof.
  split.
  - intros t. unfold interactive_position_selection.
    destruct positions as [|p ps]; [auto | apply selection_loop_within].
  - intros ->. reflexivity.
Qed.

(** X15.  A line of numbers replaces the selection, it does not extend it:
    when at least one number names a row, the new selection consists of the
    token ids of the rows named, numbers outside 1..n being ignored; when no
    number names a row, the selection stays as it was. *)
Theorem numbers_entry_replaces_selection (positions : list Position)
    (current_selected : gset string) (numbers : list Z) (rest : list SelectionInput) :
  positions ≠ [] →
  let result :=
    interactive_position_selection positions current_selected
      (InNumbers numbers :: InDone :: rest) in
  ((∃ num, num ∈ numbers ∧ (1 ≤ num ≤ Z.of_nat (length positions))%Z) →
     ∀ t, t ∈ result ↔
          ∃ num p, num ∈ numbers ∧ (1 ≤ num ≤ Z.of_nat (length positions))%Z ∧
                   positions !! Z.to_nat (num - 1) = Some p ∧ token_id p = t) ∧
  ((∀ num, num ∈ numbers → ¬ (1 ≤ num ≤ Z.of_nat (length positions))%Z) →
     result = current_selected).
Proof.
  intros Hne. cbv zeta. unfold interactive_position_selection.
  destruct positions as [|p0 ps]; [contradiction|]. cbn [selection_loop].
  split.
  - intros (num & Hnum & Hrange) t.
    assert (Hsome : numbers_selection (p0 :: ps) numbers ≠ ∅).
    { destruct (lookup_lt_is_Some_2 (p0 :: ps) (Z.to_nat (num - 1))) as [p Hp];
        [lia|].
      intros Hempty.
      assert (Hin : token_id p ∈ numbers_selection (p0 :: ps) numbers).
      { apply numbers_selection_elem. exists num, p. auto. }
      rewrite Hempty in Hin. by apply elem_of_empty in Hin. }
    case_bool_decide; [contradiction|]. apply numbers_selection_elem.
  - intros Hnone.
    assert (Hempty : numbers_selection (p0 :: ps) numbers = ∅).
    { apply set_eq. intros t. rewrite elem_of_empty. split; [|tauto].
      intros Ht. apply numbers_selection_elem in Ht as (num & p & Hnum & Hrange & _).
      by apply (Hnone num). }
    case_bool_decide; [reflexivity | contradiction].
Qed.

Lemma numbers_entry_replaces_selection_witness :
  let result :=
    interactive_position_selection [position_A; position_B] {["Z"]}
      (InNumbers [2; 7]%Z :: InDone :: []) in
  ((∃ num, num ∈ [2; 7]%Z ∧
           (1 ≤ num ≤ Z.of_nat (length [position_A; position_B]))%Z) →
     ∀ t, t ∈ result ↔
          ∃ num p, num ∈ [2; 7]%Z ∧
                   (1 ≤ num ≤ Z.of_nat (length [position_A; position_B]))%Z ∧
                   [position_A; position_B] !! Z.to_nat (num - 1) = Some p ∧
                   token_id p = t) ∧
  ((∀ num, num ∈ [2; 7]%Z →
           ¬ (1 ≤ num ≤ Z.of_nat (length [position_A; position_B]))%Z) →
     result = {["Z"]}).
Proof.
  cbv zeta.
  apply (numbers_entry_replaces_selection [position_A; position_B] {["Z"]}
           [2; 7]%Z []).
  discriminate.
Defined.

(** ** The menu of [main] *)

Lemma menu_loop_invariant (P : MenuState → Prop) (Q : MenuInput → Prop) :
  (∀ st input st1, Q input → P st → menu_reaches (menu_step st input) st1 → P st1) →
  ∀ inputs st0 st,
    Forall Q inputs → P st0 → menu_reaches (menu_loop st0 inputs) st → P st.
Proof.
  intros Hstep. induction inputs as [|input rest IH]; intros st0 st Hall H0 Hreach.
  - destruct Hreach as [[= <-]|[=]]. exact H0.
  - apply Forall_cons in Hall as [Hq Hall]. cbn in Hreach.
    destruct (menu_step st0 input) as [st1|st1|] eqn:Hs.
    + apply (IH st1 st Hall); [|exact Hreach].
      apply (Hstep st0 input st1 Hq H0). left. exact Hs.
    + destruct Hreach as [[=]|[= <-]].
      apply (Hstep st0 input st1 Hq H0). right. exact Hs.
    + destruct Hreach as [[=]|[=]].
Qed.

Lemma Forall_True_inputs (inputs : list MenuInput) : Forall (λ _, True) inputs.
Proof. induction inputs; constructor; auto. Qed.

Lemma bot_init_config_settings cfg file :
  settings_valid (bot_init_config cfg file) ↔ settings_valid cfg.
Proof. unfold bot_init_config. by case_bool_decide. Qed.

Lemma choice7_settings st client_ok positions inputs how :
  settings_valid (menu_config st) →
  settings_valid (menu_config (choice7 st client_ok positions inputs how)).
Proof.
  intros Hvalid. unfold choice7.
  destruct (bot_init_raises _ client_ok); cbn; [by apply bot_init_config_settings|].
  unfold select_positions_step.
  destruct positions as [|p ps]; cbn; by apply bot_init_config_settings.
Qed.

Lemma menu_step_settings st input st1 :
  settings_valid (menu_config st) →
  menu_reaches (menu_step st input) st1 →
  settings_valid (menu_config st1).
Proof.
  intros Hvalid Hreach.
  assert (Hsame : ∀ r, r = Continue st → menu_reaches r st1 →
                       settings_valid (menu_config st1)).
  { intros r -> [[= <-]|[=]]. exact Hvalid. }
  destruct Hvalid as (Hpct0 & Hpct100 & Hint & Hmin & Hprice).
  assert (Hvalid : settings_valid (menu_config st)) by (repeat split; auto).
  destruct input as [|entry|entry|entry| |entry| |confirm|client_ok
                     |client_ok positions inputs how| |client_ok| |how|];
    cbn in Hreach.
  - repeat case_bool_decide; cbn in Hreach;
      try destruct (no_selection (menu_config st)); cbn in Hreach;
      destruct Hreach as [[= <-]|[= <-]]; exact Hvalid.
  - destruct entry as [new_pct|]; [|by eapply Hsame].
    destruct (Qgtb new_pct 0) eqn:Hgt; cbn in Hreach; [|by eapply Hsame].
    destruct (Qle_bool new_pct 100) eqn:Hle; [|by eapply Hsame].
    destruct Hreach as [[= <-]|[=]]. apply Qgtb_true in Hgt. apply Qle_bool_iff in Hle.
    repeat split; auto.
  - destruct entry as [new_interval|]; [|by eapply Hsame].
    case_bool_decide as Hge; [|by eapply Hsame].
    destruct Hreach as [[= <-]|[=]]. repeat split; auto.
  - destruct entry as [new_min|]; [|by eapply Hsame].
    destruct (Qle_bool 0 new_min) eqn:Hle; [|by eapply Hsame].
    destruct Hreach as [[= <-]|[=]]. apply Qle_bool_iff in Hle. repeat split; auto.
  - destruct Hreach as [[= <-]|[=]]. repeat split; auto. cbn. discriminate.
  - destruct entry as [new_price|]; [|by eapply Hsame].
    destruct (Qgtb new_price 0) eqn:Hgt; [|by eapply Hsame].
    destruct Hreach as [[= <-]|[=]]. apply Qgtb_true in Hgt.
    repeat split; auto. cbn. by intros price [= <-].
  - by eapply Hsame.
  - destruct (dry_run (menu_config st)); [case_bool_decide|];
      destruct Hreach as [[= <-]|[=]]; exact Hvalid.
  - destruct Hreach as [[= <-]|[=]]. by apply bot_init_config_settings.
  - destruct Hreach as [[= <-]|[=]]. by apply choice7_settings.
  - destruct Hreach as [[= <-]|[=]]. exact Hvalid.
  - destruct (_ && _); destruct Hreach as [[= <-]|[=]];
      [by apply bot_init_config_settings | exact Hvalid].
  - destruct Hreach as [[=]|[=]].
  - destruct Hreach as [[= <-]|[=]]. exact Hvalid.
  - by eapply Hsame.
Qed.

Lemma menu_start_settings file : settings_valid (menu_config (menu_start file)).
Proof.
  assert (Hdefault : settings_valid default_config).
  { repeat split; cbn; try lia; try discriminate. }
  unfold menu_start. by case_bool_decide.
Qed.

(** X16.  Whatever is typed at the menu, the settings stay within the
    ranges the menu checks: the stop-loss percentage in (0, 100], the check
    interval at least 10 seconds, the minimum position value not negative, a
    stop-loss price positive when one is set.  This holds while the menu is
    open and when monitoring starts. *)
Theorem menu_keeps_settings_valid (file : SelectionFile) (inputs : list MenuInput)
    (st : MenuState) :
  menu_reaches (menu_loop (menu_start file) inputs) st →
  settings_valid (menu_config st).
Proof.
  apply (menu_loop_invariant (λ st, settings_valid (menu_config st)) (λ _, True)).
  - intros st0 input st1 _. apply menu_step_settings.
  - apply Forall_True_inputs.
  - apply menu_start_settings.
Qed.

Lemma menu_keeps_settings_valid_witness :
  settings_valid
    (menu_config
       (mkMenuState
          (set_check_interval 30 (set_stop_loss_percentage 35 default_config))
          NoFile)).
Proof.
  apply (menu_keeps_settings_valid NoFile
           [Choice2 (Some 35); Choice2 (Some 250); Choice3 (Some 5%Z);
            Choice3 (Some 30%Z); Choice4b (Some (-1))]).
  left. reflexivity.
Defined.

Lemma bot_init_config_dry_run cfg file :
  dry_run (bot_init_config cfg file) = dry_run cfg.
Proof. unfold bot_init_config. by case_bool_decide. Qed.

Lemma choice7_dry_run st client_ok positions inputs how :
  dry_run (menu_config (choice7 st client_ok positions inputs how)) =
  dry_run (menu_config st).
Proof.
  unfold choice7.
  destruct (bot_init_raises _ client_ok); cbn; [apply bot_init_config_dry_run|].
  unfold select_positions_step.
  destruct positions as [|p ps]; cbn; apply bot_init_config_dry_run.
Qed.

Lemma menu_step_dry_run st input st1 :
  menu_reaches (menu_step st input) st1 →
  dry_run (menu_config st1) = false →
  dry_run (menu_config st) = false ∨ input = Choice5 "CONFIRM".
Proof.
  intros Hreach Hoff.
  assert (Hsame : ∀ r, r = Continue st → menu_reaches r st1 →
                       dry_run (menu_config st) = false ∨ input = Choice5 "CONFIRM").
  { intros r -> [[= <-]|[=]]. by left. }
  destruct input as [|entry|entry|entry| |entry| |confirm|client_ok
                     |client_ok positions inputs how| |client_ok| |how|];
    cbn in Hreach.
  - repeat case_bool_decide; cbn in Hreach;
      try destruct (no_selection (menu_config st)); cbn in Hreach;
      destruct Hreach as [[= <-]|[= <-]]; by left.
  - destruct entry as [new_pct|]; [|by eapply Hsame].
    destruct (Qgtb new_pct 0 && Qle_bool new_pct 100); [|by eapply Hsame].
    destruct Hreach as [[= <-]|[=]]. by left.
  - destruct entry as [new_interval|]; [|by eapply Hsame].
    case_bool_decide; [|by eapply Hsame].
    destruct Hreach as [[= <-]|[=]]. by left.
  - destruct entry as [new_min|]; [|by eapply Hsame].
    destruct (Qle_bool 0 new_min); [|by eapply Hsame].
    destruct Hreach as [[= <-]|[=]]. by left.
  - destruct Hreach as [[= <-]|[=]]. by left.
  - destruct entry as [new_price|]; [|by eapply Hsame].
    destruct (Qgtb new_price 0); [|by eapply Hsame].
    destruct Hreach as [[= <-]|[=]]. by left.
  - by eapply Hsame.
  - destruct (dry_run (menu_config st)) eqn:Hdry; [|by left].
    case_bool_decide as Hconfirm; [right; by rewrite Hconfirm|].
    destruct Hreach as [[= <-]|[=]]. left. by rewrite <- Hoff.
  - destruct Hreach as [[= <-]|[=]]. left. cbn in Hoff.
    by rewrite bot_init_config_dry_run in Hoff.
  - destruct Hreach as [[= <-]|[=]]. left. by rewrite choice7_dry_run in Hoff.
  - destruct Hreach as [[= <-]|[=]]. by left.
  - destruct (_ && _); destruct Hreach as [[= <-]|[=]]; left; [|done].
    cbn in Hoff. by rewrite bot_init_config_dry_run in Hoff.
  - destruct Hreach as [[=]|[=]].
  - destruct Hreach as [[= <-]|[=]]. by left.
  - by eapply Hsame.
Qed.

Lemma menu_loop_dry_run inputs st0 st :
  menu_reaches (menu_loop st0 inputs) st →
  dry_run (menu_config st) = false →
  dry_run (menu_config st0) = false ∨ Choice5 "CONFIRM" ∈ inputs.
Proof.
  revert st0. induction inputs as [|input rest IH]; intros st0 Hreach Hoff.
  - destruct Hreach as [[= <-]|[=]]. by left.
  - cbn in Hreach. destruct (menu_step st0 input) as [st1|st1|] eqn:Hs.
    + destruct (IH st1 Hreach Hoff) as [Hoff1|Hin]; [|right; by right].
      destruct (menu_step_dry_run st0 input st1) as [?| ->]; auto.
      * left. exact Hs.
      * right. by left.
    + destruct Hreach as [[=]|[= <-]].
      destruct (menu_step_dry_run st0 input st1) as [?| ->]; auto.
      * right. exact Hs.
      * right. by left.
    + destruct Hreach as [[=]|[=]].
Qed.

(** X17.  Dry run is never switched off by accident: in every state the
    menu reaches, also the one with which monitoring starts, dry run is off
    only if choice 5 was taken and answered with exactly CONFIRM. *)
Theorem dry_run_off_needs_confirm (file : SelectionFile) (inputs : list MenuInput)
    (st : MenuState) :
  menu_reaches (menu_loop (menu_start file) inputs) st →
  dry_run (menu_config st) = false →
  Choice5 "CONFIRM" ∈ inputs.
Proof.
  intros Hreach Hoff.
  destruct (menu_loop_dry_run inputs (menu_start file) st Hreach Hoff) as [H|H];
    [|exact H].
  exfalso. revert H. unfold menu_start. by case_bool_decide.
Qed.

Lemma dry_run_off_needs_confirm_witness :
  Choice5 "CONFIRM" ∈ [Choice5 "confirm"; Choice8; Choice5 "CONFIRM"; Choice1].
Proof.
  apply (dry_run_off_needs_confirm NoFile
           [Choice5 "confirm"; Choice8; Choice5 "CONFIRM"; Choice1]
           (mkMenuState
              (set_dry_run false
                 (set_selected_positions ∅ (set_selection_mode "all" default_config)))
              NoFile)).
  - right. reflexivity.
  - reflexivity.
Defined.

Lemma bot_init_config_mode cfg file :
  selection_mode (bot_init_config cfg file) = selection_mode cfg.
Proof. unfold bot_init_config. by case_bool_decide. Qed.

Lemma choice7_mode st client_ok positions inputs how :
  let st1 := choice7 st client_ok positions inputs how in
  selection_mode (menu_config st1) = selection_mode (menu_config st) ∨
  selection_mode (menu_config st1) = "none" ∨
  selection_mode (menu_config st1) = "selected".
Proof.
  cbv zeta. unfold choice7.
  destruct (bot_init_raises _ client_ok); cbn; [left; apply bot_init_config_mode|].
  right. destruct (no_selection _); auto.
Qed.

Lemma menu_step_mode st input st1 :
  (selection_mode (menu_config st) = "none" ∨ selection_mode (menu_config st) = "all" ∨
   selection_mode (menu_config st) = "selected") →
  menu_reaches (menu_step st input) st1 →
  selection_mode (menu_config st1) = "none" ∨ selection_mode (menu_config st1) = "all" ∨
  selection_mode (menu_config st1) = "selected".
Proof.
  intros Hmode Hreach.
  assert (Hsame : ∀ r, r = Continue st → menu_reaches r st1 →
            selection_mode (menu_config st1) = "none" ∨
            selection_mode (menu_config st1) = "all" ∨
            selection_mode (menu_config st1) = "selected").
  { intros r -> [[= <-]|[=]]. exact Hmode. }
  destruct input as [|entry|entry|entry| |entry| |confirm|client_ok
                     |client_ok positions inputs how| |client_ok| |how|];
    cbn in Hreach.
  - repeat case_bool_decide; cbn in Hreach;
      try destruct (no_selection (menu_config st)); cbn in Hreach;
      destruct Hreach as [[= <-]|[= <-]]; exact Hmode.
  - destruct entry as [new_pct|]; [|by eapply Hsame].
    destruct (Qgtb new_pct 0 && Qle_bool new_pct 100); [|by eapply Hsame].
    destruct Hreach as [[= <-]|[=]]. exact Hmode.
  - destruct entry as [new_interval|]; [|by eapply Hsame].
    case_bool_decide; [|by eapply Hsame].
    destruct Hreach as [[= <-]|[=]]. exact Hmode.
  - destruct entry as [new_min|]; [|by eapply Hsame].
    destruct (Qle_bool 0 new_min); [|by eapply Hsame].
    destruct Hreach as [[= <-]|[=]]. exact Hmode.
  - destruct Hreach as [[= <-]|[=]]. exact Hmode.
  - destruct entry as [new_price|]; [|by eapply Hsame].
    destruct (Qgtb new_price 0); [|by eapply Hsame].
    destruct Hreach as [[= <-]|[=]]. exact Hmode.
  - by eapply Hsame.
  - destruct (dry_run (menu_config st)); [case_bool_decide|];
      destruct Hreach as [[= <-]|[=]]; exact Hmode.
  - destruct Hreach as [[= <-]|[=]]. cbn. by rewrite bot_init_config_mode.
  - destruct Hreach as [[= <-]|[=]].
    destruct (choice7_mode st client_ok positions inputs how) as [->|[->| ->]]; auto.
  - destruct Hreach as [[= <-]|[=]]. cbn. auto.
  - destruct (_ && _); destruct Hreach as [[= <-]|[=]]; [|exact Hmode].
    cbn. by rewrite bot_init_config_mode.
  - destruct Hreach as [[=]|[=]].
  - destruct Hreach as [[= <-]|[=]]. cbn. auto.
  - by eapply Hsame.
Qed.

Lemma menu_loop_start inputs st0 st :
  menu_loop st0 inputs = StartMonitoring st →
  ∃ before after st_before,
    inputs = before ++ Choice1 :: after ∧
    menu_loop st0 before = Continue st_before ∧
    menu_step st_before Choice1 = StartMonitoring st.
Proof.
  revert st0. induction inputs as [|input rest IH]; intros st0; cbn; [discriminate|].
  destruct (menu_step st0 input) as [st1|st1|] eqn:Hs; [| |discriminate].
  - intros Hrest. apply IH in Hrest as (before & after & stb & -> & Hb & Hstart).
    exists (input :: before), after, stb. cbn. rewrite Hs. auto.
  - intros [= <-]. exists [], rest, st0.
    assert (input = Choice1) as ->.
    { destruct input as [|[]|[]|[]| |[]| |? |?|? ? ? ?| |?| |?|]; cbn in Hs;
        repeat (try case_bool_decide; try destruct (dry_run _);
                try destruct (_ && _); try destruct (Qle_bool _ _);
                try destruct (Qgtb _ _));
        try discriminate; reflexivity. }
    cbn in Hs. assert (st1 = st0) as ->.
    { repeat case_bool_decide; try destruct (no_selection _); cbn in Hs; congruence. }
    auto.
Qed.

(** X18.  [main] leaves the menu for monitoring only through choice 1 and
    only with something to monitor: the mode is then "all", or it is
    "selected" with a non-empty selection; it is never "none". *)
Theorem monitoring_starts_with_a_mode (file : SelectionFile)
    (inputs : list MenuInput) (st : MenuState) :
  menu_loop (menu_start file) inputs = StartMonitoring st →
  Choice1 ∈ inputs ∧
  (selection_mode (menu_config st) = "all" ∨
   selection_mode (menu_config st) = "selected" ∧ selected_positions (menu_config st) ≠ ∅).
Proof.
  intros Hstart.
  assert (Hmode : selection_mode (menu_config st) = "none" ∨
                  selection_mode (menu_config st) = "all" ∨
                  selection_mode (menu_config st) = "selected").
  { apply (menu_loop_invariant
             (λ st, selection_mode (menu_config st) = "none" ∨
                    selection_mode (menu_config st) = "all" ∨
                    selection_mode (menu_config st) = "selected")
             (λ _, True)) with (inputs := inputs) (st0 := menu_start file).
    - intros st0 input st1 _. apply menu_step_mode.
    - apply Forall_True_inputs.
    - unfold menu_start. case_bool_decide; cbn; auto.
    - right. exact Hstart. }
  apply menu_loop_start in Hstart as (before & after & stb & -> & _ & Hguard).
  split; [apply elem_of_app; right; by left|].
  cbn in Hguard. unfold no_selection in Hguard.
  case_bool_decide as Hnone; [discriminate|].
  case_bool_decide as Hsel; cbn in Hguard.
  - case_bool_decide as Hempty; [discriminate|]. injection Hguard as <-. auto.
  - injection Hguard as <-. destruct Hmode as [?|[?|?]]; auto; contradiction.
Qed.

Lemma monitoring_starts_with_a_mode_witness :
  Choice1 ∈ [Choice1; Choice8; Choice1] ∧
  (selection_mode
     (set_selected_positions ∅ (set_selection_mode "all" default_config)) = "all" ∨
   selection_mode
     (set_selected_positions ∅ (set_selection_mode "all" default_config)) = "selected" ∧
   selected_positions
     (set_selected_positions ∅ (set_selection_mode "all" default_config)) ≠ ∅).
Proof.
  exact (monitoring_starts_with_a_mode NoFile [Choice1; Choice8; Choice1]
           (mkMenuState
              (set_selected_positions ∅ (set_selection_mode "all" default_config))
              NoFile)
           eq_refl).
Defined.

Lemma set_selected_positions_same cfg :
  set_selected_positions (selected_positions cfg) cfg = cfg.
Proof. by destruct cfg. Qed.

Lemma bot_init_config_consistent st :
  selection_consistent st →
  bot_init_config (menu_config st) (menu_file st) = menu_config st.
Proof.
  intros (_ & _ & Hfile). unfold bot_init_config.
  case_bool_decide as Hsel; [|reflexivity].
  rewrite <- (Hfile Hsel). apply set_selected_positions_same.
Qed.

Lemma consistent_same_selection st st1 :
  selection_consistent st →
  selection_mode (menu_config st1) = selection_mode (menu_config st) →
  selected_positions (menu_config st1) = selected_positions (menu_config st) →
  menu_file st1 = menu_file st →
  selection_consistent st1.
Proof.
  unfold selection_consistent. cbv zeta. intros H -> -> ->. exact H.
Qed.

Lemma choice7_consistent st client_ok positions inputs :
  selection_consistent st →
  selection_consistent (choice7 st client_ok positions inputs Written).
Proof.
  intros Hst. pose proof Hst as (Hmodes & Hother & Hfile).
  unfold choice7. rewrite (bot_init_config_consistent st Hst).
  destruct (bot_init_raises (menu_config st) client_ok).
  { by apply (consistent_same_selection st). }
  unfold select_positions_step.
  destruct positions as [|p ps]; cbn [menu_config menu_file].
  - unfold selection_consistent, no_selection. cbv zeta. cbn.
    case_bool_decide as Hempty; cbn.
    + split; [auto|]. split; [auto | discriminate].
    + split; [auto|]. split; [contradiction|]. intros _. apply Hfile.
      destruct (decide (selection_mode (menu_config st) = "selected")) as [|Hne];
        [assumption|]. by destruct (Hempty (Hother Hne)).
  - set (new_selections :=
           interactive_position_selection (p :: ps)
             (selected_positions (menu_config st)) inputs).
    unfold selection_consistent, no_selection. cbv zeta. cbn.
    case_bool_decide as Hempty; cbn.
    + split; [auto|]. split; [auto | discriminate].
    + split; [auto|]. split; [contradiction|]. intros _.
      symmetry. apply list_to_set_elements_L.
Qed.

Lemma menu_step_consistent st input st1 :
  write_fails input = false →
  selection_consistent st →
  menu_reaches (menu_step st input) st1 →
  selection_consistent st1.
Proof.
  intros Hwrite Hst Hreach.
  assert (Hsame : ∀ r, r = Continue st → menu_reaches r st1 → selection_consistent st1).
  { intros r -> [[= <-]|[=]]. exact Hst. }
  assert (Hkeep : ∀ cfg1,
            selection_mode cfg1 = selection_mode (menu_config st) →
            selected_positions cfg1 = selected_positions (menu_config st) →
            selection_consistent (mkMenuState cfg1 (menu_file st))).
  { intros cfg1 H1 H2. by apply (consistent_same_selection st). }
  destruct input as [|entry|entry|entry| |entry| |confirm|client_ok
                     |client_ok positions inputs how| |client_ok| |how|];
    cbn in Hreach.
  - repeat case_bool_decide; cbn in Hreach;
      try destruct (no_selection (menu_config st)); cbn in Hreach;
      destruct Hreach as [[= <-]|[= <-]]; exact Hst.
  - destruct entry as [new_pct|]; [|by eapply Hsame].
    destruct (Qgtb new_pct 0 && Qle_bool new_pct 100); [|by eapply Hsame].
    destruct Hreach as [[= <-]|[=]]. by apply Hkeep.
  - destruct entry as [new_interval|]; [|by eapply Hsame].
    case_bool_decide; [|by eapply Hsame].
    destruct Hreach as [[= <-]|[=]]. by apply Hkeep.
  - destruct entry as [new_min|]; [|by eapply Hsame].
    destruct (Qle_bool 0 new_min); [|by eapply Hsame].
    destruct Hreach as [[= <-]|[=]]. by apply Hkeep.
  - destruct Hreach as [[= <-]|[=]]. by apply Hkeep.
  - destruct entry as [new_price|]; [|by eapply Hsame].
    destruct (Qgtb new_price 0); [|by eapply Hsame].
    destruct Hreach as [[= <-]|[=]]. by apply Hkeep.
  - by eapply Hsame.
  - destruct (dry_run (menu_config st)); [case_bool_decide|];
      destruct Hreach as [[= <-]|[=]]; try exact Hst; by apply Hkeep.
  - destruct Hreach as [[= <-]|[=]].
    rewrite (bot_init_config_consistent st Hst). by apply Hkeep.
  - destruct Hreach as [[= <-]|[=]]. destruct how; [|discriminate].
    by apply choice7_consistent.
  - destruct Hreach as [[= <-]|[=]].
    unfold selection_consistent. cbv zeta. cbn. split; [auto|].
    split; [auto | discriminate].
  - destruct (_ && _); destruct Hreach as [[= <-]|[=]]; [|exact Hst].
    rewrite (bot_init_config_consistent st Hst). by apply Hkeep.
  - destruct Hreach as [[=]|[=]].
  - destruct Hreach as [[= <-]|[=]].
    unfold selection_consistent. cbv zeta. cbn. split; [auto|].
    split; [auto | discriminate].
  - by eapply Hsame.
Qed.

Lemma menu_start_consistent file : selection_consistent (menu_start file).
Proof.
  unfold menu_start, selection_consistent. cbv zeta.
  case_bool_decide as Hempty; cbn.
  - split; [auto|]. split; [auto | discriminate].
  - split; [auto|]. split; [contradiction | auto].
Qed.

Lemma menu_start_guard inputs st0 st :
  menu_loop st0 inputs = StartMonitoring st →
  selection_mode (menu_config st) ≠ "none" ∧
  ¬ (selection_mode (menu_config st) = "selected" ∧
     selected_positions (menu_config st) = ∅).
Proof.
  intros Hstart.
  apply menu_loop_start in Hstart as (before & after & stb & _ & _ & Hguard).
  cbn in Hguard. unfold no_selection in Hguard.
  case_bool_decide as Hnone; [discriminate|].
  case_bool_decide as Hsel; cbn in Hguard.
  - case_bool_decide as Hempty; [discriminate|]. injection Hguard as <-. tauto.
  - injection Hguard as <-. tauto.
Qed.

(** X19.  As long as every write of the selection file succeeds, the bot
    that [main] starts monitors with exactly the mode and the selection the
    menu ended with: building the bot reads back the same selection and
    [start_monitoring] does not switch the mode to "all". *)
Theorem reliable_writes_no_fallback (file : SelectionFile) (inputs : list MenuInput)
    (st : MenuState) :
  Forall (λ input, write_fails input = false) inputs →
  menu_loop (menu_start file) inputs = StartMonitoring st →
  monitoring_config st = menu_config st.
Proof.
  intros Hwrites Hstart.
  assert (Hst : selection_consistent st).
  { apply (menu_loop_invariant selection_consistent
             (λ input, write_fails input = false))
      with (inputs := inputs) (st0 := menu_start file).
    - intros st0 input st1. apply menu_step_consistent.
    - exact Hwrites.
    - apply menu_start_consistent.
    - right. exact Hstart. }
  apply menu_start_guard in Hstart as [_ Hguard].
  unfold monitoring_config. rewrite (bot_init_config_consistent st Hst).
  unfold start_monitoring_config, no_selection.
  case_bool_decide as Hsel; [|reflexivity].
  case_bool_decide as Hempty; [|reflexivity]. tauto.
Qed.

Lemma reliable_writes_no_fallback_witness :
  monitoring_config
    (mkMenuState
       (set_selection_mode "selected"
          (select_positions_for_monitoring default_config {["A"]}))
       (JsonStrings (elements ({["A"]} : gset string)))) =
  menu_config
    (mkMenuState
       (set_selection_mode "selected"
          (select_positions_for_monitoring default_config {["A"]}))
       (JsonStrings (elements ({["A"]} : gset string)))).
Proof.
  apply (reliable_writes_no_fallback NoFile
           [Choice7 true [position_A; position_B] [InNumbers [1%Z]; InDone] Written;
            Choice1]).
  - repeat constructor.
  - vm_compute. reflexivity.
Defined.

(** X20.  When choice 7 selects positions but the selection file cannot be
    written and nothing readable is left in it, the menu shows mode
    "selected" with the new selection and choice 1 starts monitoring; the bot
    built then reads an empty selection back, [start_monitoring] switches to
    mode "all", and every position of every snapshot is monitored. *)
Theorem failed_save_monitors_everything (st : MenuState) (client_ok : bool)
    (positions : list Position) (inputs : list SelectionInput)
    (file_left : SelectionFile) :
  let cfg1 := bot_init_config (menu_config st) (menu_file st) in
  let new_selections :=
    interactive_position_selection positions (selected_positions cfg1) inputs in
  let st1 := choice7 st client_ok positions inputs (WriteFailed file_left) in
  bot_init_raises cfg1 client_ok = false →
  positions ≠ [] →
  new_selections ≠ ∅ →
  load_selected_positions file_left = ∅ →
  selection_mode (menu_config st1) = "selected" ∧
  selected_positions (menu_config st1) = new_selections ∧
  menu_step st1 Choice1 = StartMonitoring st1 ∧
  selection_mode (monitoring_config st1) = "all" ∧
  ∀ snapshot, filter_monitored_positions (monitoring_config st1) snapshot = snapshot.
Proof.
  cbv zeta. intros Hinit Hpos Hnew Hleft.
  unfold choice7. rewrite Hinit. unfold select_positions_step.
  destruct positions as [|p ps]; [contradiction|].
  set (cfg1 := bot_init_config (menu_config st) (menu_file st)) in *.
  cbn [menu_config menu_file save_selected_positions].
  set (new_selections :=
         interactive_position_selection (p :: ps) (selected_positions cfg1) inputs) in *.
  assert (Hno : no_selection (select_positions_for_monitoring cfg1 new_selections) = false).
  { unfold no_selection. cbn. by apply bool_decide_eq_false. }
  rewrite Hno.
  split; [reflexivity|]. split; [reflexivity|].
  assert (Hmon : selection_mode
            (monitoring_config
               (mkMenuState
                  (set_selection_mode "selected"
                     (select_positions_for_monitoring cfg1 new_selections))
                  file_left)) = "all").
  { unfold monitoring_config, bot_init_config. cbn. rewrite Hleft.
    unfold start_monitoring_config, no_selection. cbn. reflexivity. }
  split; [|split; [exact Hmon|]].
  - cbn. unfold no_selection. cbn.
    rewrite (bool_decide_eq_false_2 (new_selections = ∅)) by exact Hnew. reflexivity.
  - intros snapshot. by apply filter_all.
Qed.

Lemma failed_save_monitors_everything_witness :
  let st1 :=
    choice7 (menu_start NoFile) true [position_A; position_B]
      [InNumbers [1%Z]; InDone] (WriteFailed NoFile) in
  selection_mode (menu_config st1) = "selected" ∧
  selected_positions (menu_config st1) =
    interactive_position_selection [position_A; position_B]
      (selected_positions
         (bot_init_config (menu_config (menu_start NoFile))
            (menu_file (menu_start NoFile))))
      [InNumbers [1%Z]; InDone] ∧
  menu_step st1 Choice1 = StartMonitoring st1 ∧
  selection_mode (monitoring_config st1) = "all" ∧
  ∀ snapshot, filter_monitored_positions (monitoring_config st1) snapshot = snapshot.
Proof.
  cbv zeta.
  apply (failed_save_monitors_everything (menu_start NoFile) true
           [position_A; position_B] [InNumbers [1%Z]; InDone] NoFile).
  - reflexivity.
  - discriminate.
  - apply (bool_decide_eq_false_1 _). vm_compute. reflexivity.
  - reflexivity.
Defined.

(** ** The bot around the executor *)

(** An order of the executor for this position: a sell of its token. *)
Lemma chunk_loop_calls {V : Type} {client : ClobClient V}
    fuel position chunk_size (w w1 : World V) st c :
  chunk_loop fuel position chunk_size w st = Some (w1, c) →
  ∃ new, calls w1 = calls w ++ new ∧
    Forall (λ c, order_token_id c.1 = token_id position ∧ order_side c.1 = SELL) new.
Proof.
  revert w st. induction fuel as [|fuel IH]; intros w st; cbn.
  - destruct (Qgtb (remaining_size st) 0.1); [discriminate|].
    intros [= <- <-]. exists []. by rewrite app_nil_r.
  - destruct (Qgtb (remaining_size st) 0.1).
    + destruct (chunk_attempt position chunk_size w st) as [w2 c2] eqn:Hstep.
      apply chunk_attempt_cases in Hstep. cbv zeta in Hstep.
      destruct Hstep as (r & Hcalls & _).
      assert (Hone : Forall
                (λ c : OrderArgs * PlaceResult,
                   order_token_id c.1 = token_id position ∧ order_side c.1 = SELL)
                [({| order_price := sell_price st;
                     order_size := Qmin (remaining_size st) chunk_size;
                     order_side := SELL;
                     order_token_id := token_id position |}, r)]).
      { constructor; [by split | constructor]. }
      destruct c2 as [|st2].
      * intros [= <- <-]. eexists. split; [exact Hcalls | exact Hone].
      * intros Hrest. apply IH in Hrest as (new & Hcalls2 & Hall).
        eexists. rewrite Hcalls2, Hcalls, <- app_assoc. split; [reflexivity|].
        apply Forall_app. by split.
    + intros [= <- <-]. exists []. by rewrite app_nil_r.
Qed.

Lemma execute_market_sell_calls {V : Type} {client : ClobClient V}
    fuel position cfg (w w1 : World V) c :
  execute_market_sell fuel position cfg w = Some (w1, c) →
  ∃ new, calls w1 = calls w ++ new ∧
    Forall (λ c, order_token_id c.1 = token_id position ∧ order_side c.1 = SELL) new.
Proof.
  unfold execute_market_sell.
  destruct (price_discovery position w) as [w2 price] eqn:Hpd.
  apply price_discovery_calls in Hpd as [Hcalls _].
  destruct (chunk_loop fuel position _ w2 _) as [[w3 [|st]]|] eqn:Hloop;
    [| |discriminate].
  - intros [= <- <-]. apply chunk_loop_calls in Hloop as (new & Hc & Hall).
    exists new. by rewrite Hc, Hcalls.
  - pose proof (chunk_loop_exit _ _ _ _ _ _ _ Hloop) as Hexit.
    rewrite final_sweep_skipped by exact Hexit. intros [= <- <-].
    apply chunk_loop_calls in Hloop as (new & Hc & Hall).
    exists new. by rewrite Hc, Hcalls.
Qed.

(** X21.  With dry run off, [execute_stop_loss] returns [True] exactly when
    the executor returned a result, whether that result reports success or
    "No orders could be placed", and then the execution log has grown by one
    record holding that result.  It returns [False] only when there is no
    trading client, in which case the venue is not called, or when the
    executor raised; the log is then unchanged.  The configuration is never
    changed. *)
Theorem execute_stop_loss_outcome {V : Type} {client : ClobClient V}
    (fuel : nat) (bot bot1 : Bot) (position : Position) (w w1 : World V) (ok : bool) :
  dry_run (config bot) = false →
  execute_stop_loss fuel bot position w = Some (ok, bot1, w1) →
  config bot1 = config bot ∧
  if ok then
    trading_client bot = true ∧
    ∃ result,
      execute_market_sell fuel position (config bot) w = Some (w1, Returned result) ∧
      ∃ entry, stop_loss_log bot1 = stop_loss_log bot ++ [entry] ∧
               log_order_result entry = result
  else
    stop_loss_log bot1 = stop_loss_log bot ∧
    (trading_client bot = false ∧ w1 = w ∨
     execute_market_sell fuel position (config bot) w = Some (w1, Raised)).
Proof.
  intros Hlive. unfold execute_stop_loss. rewrite Hlive.
  destruct (trading_client bot) eqn:Hclient; cbn.
  - destruct (execute_market_sell fuel position (config bot) w)
      as [[w2 [|result]]|] eqn:Hrun; [| |discriminate].
    + intros [= <- <- <-]. auto.
    + intros [= <- <- <-]. cbn. split; [reflexivity|]. split; [reflexivity|].
      exists result. split; [reflexivity|]. eexists. split; reflexivity.
  - intros [= <- <- <-]. auto.
Qed.

Lemma execute_stop_loss_outcome_witness :
  config (mkBot live_config true
            [mkLogEntry "market" "Yes" 0.1 (0.1 * 0.40) 0 0
               (ExecFailure "No orders could be placed" 0.1)]) =
  config (mkBot live_config true []) ∧
  (trading_client (mkBot live_config true []) = true ∧
   ∃ result,
     execute_market_sell (client := accepting_client [0.38]) 0
       (position_of "D" 0.1 0.40 0) (config (mkBot live_config true [])) empty_world =
     Some (empty_world, Returned result) ∧
     ∃ entry,
       stop_loss_log
         (mkBot live_config true
            [mkLogEntry "market" "Yes" 0.1 (0.1 * 0.40) 0 0
               (ExecFailure "No orders could be placed" 0.1)]) =
       stop_loss_log (mkBot live_config true []) ++ [entry] ∧
       log_order_result entry = result).
Proof.
  exact (execute_stop_loss_outcome (client := accepting_client [0.38]) 0
           (mkBot live_config true [])
           (mkBot live_config true
              [mkLogEntry "market" "Yes" 0.1 (0.1 * 0.40) 0 0
                 (ExecFailure "No orders could be placed" 0.1)])
           (position_of "D" 0.1 0.40 0) empty_world empty_world true
           eq_refl eq_refl).
Defined.

Lemma execute_stop_loss_calls {V : Type} {client : ClobClient V}
    fuel bot bot1 position (w w1 : World V) ok :
  execute_stop_loss fuel bot position w = Some (ok, bot1, w1) →
  config bot1 = config bot ∧
  ∃ new, calls w1 = calls w ++ new ∧
    Forall (λ c, order_token_id c.1 = token_id position ∧ order_side c.1 = SELL) new.
Proof.
  unfold execute_stop_loss.
  assert (Hnil : ∃ new, calls w = calls w ++ new ∧
            Forall (λ c : OrderArgs * PlaceResult,
                      order_token_id c.1 = token_id position ∧ order_side c.1 = SELL) new).
  { exists []. by rewrite app_nil_r. }
  destruct (dry_run (config bot)); [intros [= <- <- <-]; auto|].
  destruct (trading_client bot); cbn; [|intros [= <- <- <-]; auto].
  destruct (execute_market_sell fuel position (config bot) w)
    as [[w2 [|result]]|] eqn:Hrun; [| |discriminate].
  - intros [= <- <- <-]. split; [reflexivity|]. by eapply execute_market_sell_calls.
  - intros [= <- <- <-]. split; [reflexivity|]. by eapply execute_market_sell_calls.
Qed.

Lemma execute_triggered_calls {V : Type} {client : ClobClient V}
    fuel triggered bot bot1 (w w1 : World V) :
  execute_triggered fuel bot triggered w = Some (bot1, w1) →
  ∃ new, calls w1 = calls w ++ new ∧
    Forall (λ c, order_side c.1 = SELL ∧
                 ∃ p, p ∈ triggered ∧ order_token_id c.1 = token_id p) new.
Proof.
  revert bot w. induction triggered as [|p rest IH]; intros bot w; cbn.
  - intros [= <- <-]. exists []. by rewrite app_nil_r.
  - destruct (execute_stop_loss fuel bot p w) as [[[ok bot2] w2]|] eqn:Hone;
      [|discriminate].
    apply execute_stop_loss_calls in Hone as (_ & new1 & Hc1 & Hall1).
    intros Hrest. apply IH in Hrest as (new2 & Hc2 & Hall2).
    exists (new1 ++ new2). rewrite Hc2, Hc1, <- app_assoc. split; [reflexivity|].
    apply Forall_app. split.
    + eapply Forall_impl; [exact Hall1|]. intros c [Htoken Hside].
      split; [exact Hside|]. exists p. split; [by left | exact Htoken].
    + eapply Forall_impl; [exact Hall2|]. intros c (Hside & q & Hq & Htoken).
      split; [exact Hside|]. exists q. split; [by right | exact Htoken].
Qed.

(** The orders of a run that may still be going. *)
Lemma chunk_loop_world_calls {V : Type} {client : ClobClient V}
    fuel position chunk_size (w : World V) st :
  ∃ new, calls (chunk_loop_world fuel position chunk_size w st) = calls w ++ new ∧
    Forall (λ c, order_token_id c.1 = token_id position ∧ order_side c.1 = SELL) new.
Proof.
  revert w st. induction fuel as [|fuel IH]; intros w st; cbn.
  - destruct (Qgtb (remaining_size st) 0.1); exists []; by rewrite app_nil_r.
  - destruct (Qgtb (remaining_size st) 0.1); [|exists []; by rewrite app_nil_r].
    destruct (chunk_attempt position chunk_size w st) as [w2 c2] eqn:Hstep.
    apply chunk_attempt_cases in Hstep. cbv zeta in Hstep.
    destruct Hstep as (r & Hcalls & _).
    assert (Hone : Forall
              (λ c : OrderArgs * PlaceResult,
                 order_token_id c.1 = token_id position ∧ order_side c.1 = SELL)
              [({| order_price := sell_price st;
                   order_size := Qmin (remaining_size st) chunk_size;
                   order_side := SELL;
                   order_token_id := token_id position |}, r)]).
    { constructor; [by split | constructor]. }
    destruct c2 as [|st2].
    + eexists. split; [exact Hcalls | exact Hone].
    + destruct (IH w2 st2) as (new & Hcalls2 & Hall).
      eexists. rewrite Hcalls2, Hcalls, <- app_assoc. split; [reflexivity|].
      apply Forall_app. by split.
Qed.

Lemma chunk_loop_world_agrees {V : Type} {client : ClobClient V}
    fuel position chunk_size (w w1 : World V) st c :
  chunk_loop fuel position chunk_size w st = Some (w1, c) →
  chunk_loop_world fuel position chunk_size w st = w1.
Proof.
  revert w st. induction fuel as [|fuel IH]; intros w st; cbn.
  - destruct (Qgtb (remaining_size st) 0.1); [discriminate|]. by intros [= <- <-].
  - destruct (Qgtb (remaining_size st) 0.1); [|by intros [= <- <-]].
    destruct (chunk_attempt position chunk_size w st) as [w2 [|st2]].
    + by intros [= <- <-].
    + apply IH.
Qed.

Lemma execute_market_sell_world_calls {V : Type} {client : ClobClient V}
    fuel position cfg (w : World V) :
  ∃ new, calls (execute_market_sell_world fuel position cfg w) = calls w ++ new ∧
    Forall (λ c, order_token_id c.1 = token_id position ∧ order_side c.1 = SELL) new.
Proof.
  unfold execute_market_sell_world.
  destruct (price_discovery position w) as [w2 price] eqn:Hpd.
  apply price_discovery_calls in Hpd as [Hcalls _].
  destruct (chunk_loop fuel position _ w2 _) as [[w3 [|st]]|] eqn:Hloop.
  - apply chunk_loop_calls in Hloop as (new & Hc & Hall).
    exists new. by rewrite Hc, Hcalls.
  - pose proof (chunk_loop_exit _ _ _ _ _ _ _ Hloop) as Hexit.
    rewrite final_sweep_skipped by exact Hexit. cbn.
    apply chunk_loop_calls in Hloop as (new & Hc & Hall).
    exists new. by rewrite Hc, Hcalls.
  - destruct (chunk_loop_world_calls fuel position (Qmin (size position) 50) w2
                (initial_state position price)) as (new & Hc & Hall).
    exists new. by rewrite Hc, Hcalls.
Qed.

Lemma execute_market_sell_world_agrees {V : Type} {client : ClobClient V}
    fuel position cfg (w w1 : World V) c :
  execute_market_sell fuel position cfg w = Some (w1, c) →
  execute_market_sell_world fuel position cfg w = w1.
Proof.
  unfold execute_market_sell, execute_market_sell_world.
  destruct (price_discovery position w) as [w2 price].
  destruct (chunk_loop fuel position _ w2 _) as [[w3 [|st]]|]; [| |discriminate].
  - by intros [= <- <-].
  - destruct (final_sweep position w3 st) as [w4 st4]. by intros [= <- <-].
Qed.

Lemma execute_stop_loss_world_calls {V : Type} {client : ClobClient V}
    fuel bot position (w : World V) :
  ∃ new, calls (execute_stop_loss_world fuel bot position w) = calls w ++ new ∧
    Forall (λ c, order_token_id c.1 = token_id position ∧ order_side c.1 = SELL) new.
Proof.
  unfold execute_stop_loss_world.
  destruct (dry_run (config bot)); [exists []; by rewrite app_nil_r|].
  destruct (trading_client bot); cbn; [|exists []; by rewrite app_nil_r].
  apply execute_market_sell_world_calls.
Qed.

Lemma execute_stop_loss_world_agrees {V : Type} {client : ClobClient V}
    fuel bot bot1 position (w w1 : World V) ok :
  execute_stop_loss fuel bot position w = Some (ok, bot1, w1) →
  execute_stop_loss_world fuel bot position w = w1.
Proof.
  unfold execute_stop_loss, execute_stop_loss_world.
  destruct (dry_run (config bot)); [by intros [= <- <- <-]|].
  destruct (trading_client bot); cbn; [|by intros [= <- <- <-]].
  destruct (execute_market_sell fuel position (config bot) w)
    as [[w2 [|result]]|] eqn:Hrun; [| |discriminate];
    intros [= <- <- <-]; by eapply execute_market_sell_world_agrees.
Qed.

Lemma execute_triggered_world_calls {V : Type} {client : ClobClient V}
    fuel triggered bot (w : World V) :
  ∃ new, calls (execute_triggered_world fuel bot triggered w) = calls w ++ new ∧
    Forall (λ c, order_side c.1 = SELL ∧
                 ∃ p, p ∈ triggered ∧ order_token_id c.1 = token_id p) new.
Proof.
  revert bot w. induction triggered as [|p rest IH]; intros bot w; cbn.
  - exists []. by rewrite app_nil_r.
  - destruct (execute_stop_loss fuel bot p w) as [[[ok bot2] w2]|] eqn:Hone.
    + apply execute_stop_loss_calls in Hone as (_ & new1 & Hc1 & Hall1).
      destruct (IH bot2 w2) as (new2 & Hc2 & Hall2).
      exists (new1 ++ new2). rewrite Hc2, Hc1, <- app_assoc. split; [reflexivity|].
      apply Forall_app. split.
      * eapply Forall_impl; [exact Hall1|]. intros c [Htoken Hside].
        split; [exact Hside|]. exists p. split; [by left | exact Htoken].
      * eapply Forall_impl; [exact Hall2|]. intros c (Hside & q & Hq & Htoken).
        split; [exact Hside|]. exists q. split; [by right | exact Htoken].
    + destruct (execute_stop_loss_world_calls fuel bot p w) as (new & Hc & Hall).
      exists new. split; [exact Hc|].
      eapply Forall_impl; [exact Hall|]. intros c [Htoken Hside].
      split; [exact Hside|]. exists p. split; [by left | exact Htoken].
Qed.

Lemma execute_triggered_world_agrees {V : Type} {client : ClobClient V}
    fuel triggered bot bot1 (w w1 : World V) :
  execute_triggered fuel bot triggered w = Some (bot1, w1) →
  execute_triggered_world fuel bot triggered w = w1.
Proof.
  revert bot w. induction triggered as [|p rest IH]; intros bot w; cbn.
  - by intros [= <- <-].
  - destruct (execute_stop_loss fuel bot p w) as [[[ok bot2] w2]|]; [|discriminate].
    apply IH.
Qed.

(** X22.  A monitoring cycle touches only what it was told to watch, also
    when it never comes back.  After any number of passes through the
    executor's loop, whether the cycle is over by then or still running,
    every order handed to the venue so far is a sell for the token of a
    position of the snapshot that the filter keeps and for which the trigger
    condition holds; in mode "selected" that token is one of the selected
    ids.  When the cycle is over, the world it returns is the one these
    orders were read from. *)
Theorem cycle_orders_only_triggered {V : Type} {client : ClobClient V}
    (fuel : nat) (bot : Bot) (positions : list Position) (w : World V) :
  (∃ new,
     calls (run_monitoring_cycle_world fuel bot positions w) = calls w ++ new ∧
     Forall
       (λ c, order_side c.1 = SELL ∧
             ∃ p, p ∈ positions ∧ order_token_id c.1 = token_id p ∧
                  p ∈ filter_monitored_positions (config bot) positions ∧
                  (evaluate (config bot) p).1 = true ∧
                  (selection_mode (config bot) = "selected" →
                     token_id p ∈ selected_positions (config bot)))
       new)
  ∧ (∀ bot1 w1,
       run_monitoring_cycle fuel bot positions w = Some (bot1, w1) →
       run_monitoring_cycle_world fuel bot positions w = w1).
Proof.
  split.
  - unfold run_monitoring_cycle_world. destruct positions as [|p0 ps].
    + exists []. by rewrite app_nil_r.
    + destruct (execute_triggered_world_calls fuel
                  (check_stop_loss_triggers (config bot) (p0 :: ps)) bot w)
        as (new & Hcalls & Hall).
      exists new. split; [exact Hcalls|].
      eapply Forall_impl; [exact Hall|]. intros c (Hside & p & Hp & Htoken).
      split; [exact Hside|]. exists p.
      unfold check_stop_loss_triggers in Hp. rewrite scan_triggers_filter in Hp.
      apply list_elem_of_filter in Hp as [Heval Hmon].
      pose proof Hmon as Hmon'. rewrite filter_monitored_as_filter in Hmon'.
      apply list_elem_of_filter in Hmon' as [Hkeeps Hin].
      repeat split; auto.
      intros Hsel. revert Hkeeps. unfold monitors.
      rewrite orb_true_iff, !andb_true_iff, !bool_decide_eq_true.
      intros [Hmode|[_ Htoken']]; [|exact Htoken'].
      rewrite Hsel in Hmode. discriminate.
  - intros bot1 w1. unfold run_monitoring_cycle, run_monitoring_cycle_world.
    destruct positions as [|p0 ps]; [by intros [= <- <-]|].
    apply execute_triggered_world_agrees.
Qed.

(** A cycle that never comes back: position A has lost 30% and the venue
    rejects everything.  After two passes the cycle is still running and the
    venue has been handed two sells of 50 for A, at 0.38 and at 0.38 * 0.95;
    position B, which is not triggered, has not been touched. *)
Lemma cycle_orders_only_triggered_witness :
  run_monitoring_cycle (client := rejecting_client [0.38]) 2
    (mkBot live_config true []) [position_of "A" 100 0.40 (-30); position_B]
    empty_world = None
  ∧ ∃ new,
    [(order_A, Responded (mkPostResponse false "N/A"));
     ({| order_price := 0.3610; order_size := 50; order_side := SELL;
         order_token_id := "A" |}, Responded (mkPostResponse false "N/A"))] =
    calls empty_world ++ new ∧
    Forall
      (λ c, order_side c.1 = SELL ∧
            ∃ p, p ∈ [position_of "A" 100 0.40 (-30); position_B] ∧
                 order_token_id c.1 = token_id p ∧
                 p ∈ filter_monitored_positions (config (mkBot live_config true []))
                       [position_of "A" 100 0.40 (-30); position_B] ∧
                 (evaluate (config (mkBot live_config true [])) p).1 = true ∧
                 (selection_mode (config (mkBot live_config true [])) = "selected" →
                    token_id p ∈ selected_positions (config (mkBot live_config true []))))
      new.
Proof.
  split; [reflexivity|].
  exact (proj1 (cycle_orders_only_triggered (client := rejecting_client [0.38]) 2
                  (mkBot live_config true [])
                  [position_of "A" 100 0.40 (-30); position_B] empty_world)).
Defined.

(** ** More on the executor *)

Lemma chunk_attempt_accepted {V : Type} {client : ClobClient V}
    position chunk_size (w : World V) st :
  always_accepts client →
  ∃ w1 result,
    chunk_attempt position chunk_size w st =
    (w1, Returned
           {| sell_price := sell_price st;
              remaining_size := remaining_size st - Qmin (remaining_size st) chunk_size;
              total_filled := total_filled st + Qmin (remaining_size st) chunk_size;
              orders_placed := orders_placed st ++ [result] |}).
Proof.
  intros [Hcreate Hpost]. unfold chunk_attempt, place_order. cbv zeta.
  destruct (Hcreate (venue w)
              {| order_price := sell_price st;
                 order_size := Qmin (remaining_size st) chunk_size;
                 order_side := SELL;
                 order_token_id := token_id position |}) as (signed & v1 & ->).
  destruct (Hpost v1 signed GTC) as (result & v2 & -> & Hok).
  rewrite Hok. eauto.
Qed.

Lemma passes_succ (n : nat) :
  inject_Z (Z.of_nat (S n)) == inject_Z (Z.of_nat n) + 1.
Proof. rewrite Nat2Z.inj_succ, <- Z.add_1_r, inject_Z_plus. reflexivity. Qed.

Lemma passes_nonneg (n : nat) : 0 <= inject_Z (Z.of_nat n).
Proof.
  change 0 with (inject_Z 0). rewrite <- Zle_Qle. apply Nat2Z.is_nonneg.
Qed.

Lemma chunk_loop_accepting {V : Type} {client : ClobClient V}
    fuel position chunk_size (w : World V) st :
  always_accepts client →
  remaining_size st <= chunk_size * inject_Z (Z.of_nat fuel) →
  ∃ w1 st1, chunk_loop fuel position chunk_size w st = Some (w1, Returned st1).
Proof.
  intros Haccept. revert w st. induction fuel as [|fuel IH]; intros w st Hbound.
  - change (inject_Z (Z.of_nat 0)) with 0 in Hbound. rewrite Qmult_0_r in Hbound.
    assert (Hle : Qgtb (remaining_size st) 0.1 = false).
    { apply Qgtb_false. lra. }
    cbn. rewrite Hle. eauto.
  - destruct (Qgtb (remaining_size st) 0.1) eqn:Hgt;
      [|rewrite chunk_loop_done by exact Hgt; eauto].
    rewrite chunk_loop_unfold by exact Hgt. apply Qgtb_true in Hgt.
    destruct (chunk_attempt_accepted position chunk_size w st Haccept)
      as (w1 & result & ->).
    apply IH. cbn. rewrite passes_succ in Hbound.
    pose proof (passes_nonneg fuel) as Hfuel.
    assert (Hdist : chunk_size * (inject_Z (Z.of_nat fuel) + 1) ==
                    chunk_size * inject_Z (Z.of_nat fuel) + chunk_size) by ring.
    rewrite Hdist in Hbound.
    destruct (Q.min_spec (remaining_size st) chunk_size) as [[Hlt Hmin]|[Hge Hmin]];
      rewrite Hmin.
    + assert (Hprod : 0 <= chunk_size * inject_Z (Z.of_nat fuel)).
      { apply Qmult_le_0_compat; [lra | exact Hfuel]. }
      lra.
    + lra.
Qed.

(** X23.  With a venue that accepts every order the executor does return:
    given as many loop passes as chunks are needed to cover the size (n
    passes with size <= min(size, 50) * n), it ends with a result, and that
    result is a success whenever the position is above the dust threshold. *)
Theorem accepting_venue_terminates {V : Type} {client : ClobClient V}
    (fuel : nat) (position : Position) (cfg : StopLossConfig) (w : World V) :
  always_accepts client →
  size position <= Qmin (size position) 50 * inject_Z (Z.of_nat fuel) →
  ∃ w1 r,
    execute_market_sell fuel position cfg w = Some (w1, Returned r) ∧
    (0.1 < size position → result_success r = true).
Proof.
  intros Haccept Hbound. unfold execute_market_sell.
  destruct (price_discovery position w) as [w0 price] eqn:Hpd.
  destruct (chunk_loop_accepting fuel position (Qmin (size position) 50) w0
              (initial_state position price) Haccept Hbound) as (w1 & st1 & Hloop).
  rewrite Hloop.
  pose proof (chunk_loop_exit _ _ _ _ _ _ _ Hloop) as Hexit.
  rewrite final_sweep_skipped by exact Hexit.
  exists w1, (summary position st1). split; [reflexivity|].
  intros Hsize.
  assert (Hvis : visits position w w1 st1).
  { apply (chunk_loop_visits fuel position w w0 w1 (initial_state position price) st1);
      [by constructor | exact Hloop]. }
  destruct (visits_inv _ _ _ _ Hvis) as (new & _ & Htotal & Horders & Hsum & _).
  unfold summary. destruct (orders_placed st1) as [|x xs] eqn:Hplaced; [|reflexivity].
  exfalso. symmetry in Horders. apply accepted_size_none in Horders.
  apply Qgtb_false in Hexit. lra.
Qed.

Lemma accepting_venue_terminates_witness :
  ∃ w1 r,
    execute_market_sell (client := accepting_client [0.38]) 2
      position_A default_config empty_world = Some (w1, Returned r) ∧
    (0.1 < size position_A → result_success r = true).
Proof.
  apply (accepting_venue_terminates (client := accepting_client [0.38]) 2
           position_A default_config empty_world).
  - split.
    + intros v order_args. exists order_args, v. reflexivity.
    + intros v signed order_type. exists (mkPostResponse true "order"), v.
      split; reflexivity.
  - vm_compute. discriminate.
Defined.

(** X24.  [execute_market_sell] never returns a partial liquidation.  A
    success result leaves at most 0.1 units unordered (and not less than 0
    for a position of non-negative size); the failure result is returned only
    for a position of at most 0.1 units, for which no order is tried at
    all. *)
Theorem returned_result_is_complete {V : Type} {client : ClobClient V}
    (fuel : nat) (position : Position) (cfg : StopLossConfig)
    (w w1 : World V) (r : ExecutionResult) :
  execute_market_sell fuel position cfg w = Some (w1, Returned r) →
  match r with
  | ExecSuccess _ total remaining _ =>
      remaining <= 0.1 ∧ size position - 0.1 <= total ∧
      (0 <= size position → 0 <= remaining)
  | ExecFailure _ _ => size position <= 0.1 ∧ calls w1 = calls w
  end.
Proof.
  intros Hrun. pose proof Hrun as Hcalls.
  apply execute_market_sell_returned in Hrun as (st & Hvis & -> & Hle).
  destruct (visits_inv _ _ _ _ Hvis) as (new & Hnew & Htotal & Horders & Hsum & _).
  unfold summary. destruct (orders_placed st) as [|x xs] eqn:Hplaced.
  - symmetry in Horders. pose proof (accepted_size_none _ Horders) as Hzero.
    assert (Hsize : size position <= 0.1) by lra.
    split; [exact Hsize|].
    revert Hcalls. unfold execute_market_sell.
    destruct (price_discovery position w) as [w0 price] eqn:Hpd.
    apply price_discovery_calls in Hpd as [Hsame _].
    assert (Hdone : Qgtb (remaining_size (initial_state position price)) 0.1 = false).
    { apply Qgtb_false. exact Hsize. }
    rewrite chunk_loop_done by exact Hdone.
    rewrite final_sweep_skipped by exact Hdone.
    intros [= <-]. exact Hsame.
  - split; [lra|]. split; [lra|]. intros Hsize.
    destruct (visits_sizes _ _ _ _ Hsize Hvis) as [Hrem _]. lra.
Qed.

Lemma returned_result_is_complete_witness :
  0 <= 0.1 ∧ size position_A - 0.1 <= 100 ∧ (0 <= size position_A → 0 <= 0).
Proof.
  exact (returned_result_is_complete (client := accepting_client [0.38]) 2
           position_A default_config empty_world
           (mkWorld ()
              [(order_A, Responded (mkPostResponse true "order"));
               (order_A, Responded (mkPostResponse true "order"))])
           (ExecSuccess 2 100 0
              [mkPostResponse true "order"; mkPostResponse true "order"])
           eq_refl).
Defined.

Lemma reprice_not_higher (price bound factor : Q) :
  0.001 <= price → price <= bound → 0 <= factor → factor <= 1 →
  Qmax 0.001 (price * factor) <= bound.
Proof.
  intros Hfloor Hbound Hf0 Hf1. apply Q.max_lub; [lra|].
  assert (Hprod : price * factor <= price * 1).
  { apply Qmult_le_l; [lra | exact Hf1]. }
  lra.
Qed.

(** X25.  The executor only concedes on price: in every state it visits
    the working price is at most the price found by price discovery, and so
    is the price of every order of the loop handed to the venue. *)
Theorem price_never_raised {V : Type} {client : ClobClient V}
    (position : Position) (w0 w_start w : World V) (price : Q) (st : ExecState) :
  price_discovery position w0 = (w_start, price) →
  visits position w0 w st →
  sell_price st <= price ∧
  ∃ new, calls w = calls w0 ++ new ∧ Forall (λ c, order_price c.1 <= price) new.
Proof.
  intros Hpd.
  induction 1 as [w1 price1 Hpd1 | w st w1 st1 Hvis IH Hgt Hstep
                 | w st w1 st1 Hvis IH Hle Hsweep].
  - assert (price1 = price ∧ w1 = w_start) as [-> ->] by (split; congruence).
    cbn. split; [lra|]. apply price_discovery_calls in Hpd as [Hcalls _].
    exists []. rewrite Hcalls, app_nil_r. auto.
  - destruct IH as (Hprice & new & Hcalls & Hall).
    destruct (visits_inv _ _ _ _ Hvis) as (_ & _ & _ & _ & _ & Hfloor & _).
    apply chunk_attempt_cases in Hstep. cbv zeta in Hstep.
    destruct Hstep as (r & Hcalls1 & Hr).
    split.
    + destruct r as [| |result]; [discriminate | |].
      * injection Hr as ->. cbn. apply reprice_not_higher; auto; lra.
      * destruct (resp_success result); injection Hr as ->; cbn; [exact Hprice|].
        apply reprice_not_higher; auto; lra.
    + eexists. split; [by rewrite Hcalls1, Hcalls, <- app_assoc|].
      apply Forall_app. split; [exact Hall|]. constructor; [exact Hprice | constructor].
  - rewrite final_sweep_skipped in Hsweep by exact Hle.
    injection Hsweep as <- <-. exact IH.
Qed.

Lemma price_never_raised_witness :
  sell_price (reprice 0.95 (initial_state position_B 0.3800)) <= 0.3800 ∧
  ∃ new,
    [({| order_price := 0.3800; order_size := 30; order_side := SELL;
         order_token_id := "B" |}, Responded (mkPostResponse false "N/A"))] =
    calls empty_world ++ new ∧
    Forall (λ c, order_price c.1 <= 0.3800) new.
Proof.
  refine (price_never_raised (client := rejecting_client []) position_B
            empty_world empty_world
            (mkWorld ()
               [({| order_price := 0.3800; order_size := 30; order_side := SELL;
                    order_token_id := "B" |}, Responded (mkPostResponse false "N/A"))])
            0.3800 (reprice 0.95 (initial_state position_B 0.3800)) eq_refl _).
  eapply visits_chunk.
  - apply (visits_start position_B empty_world empty_world 0.3800). reflexivity.
  - reflexivity.
  - reflexivity.
Defined.

(** X26.  [validate_configuration] and the guard of menu choice 1 are the
    same test once a user address is configured: choice 1 starts monitoring
    exactly for the configurations that validate, and for those
    [start_monitoring] leaves the mode as it is. *)
Theorem menu_guard_is_validation (st : MenuState) (user_address : string) :
  user_address ≠ "" →
  (menu_step st Choice1 = StartMonitoring st ↔
   validate_configuration (menu_config st) user_address = true) ∧
  (validate_configuration (menu_config st) user_address = true →
   start_monitoring_config (menu_config st) = menu_config st).
Proof.
  intros Haddr. unfold validate_configuration, start_monitoring_config. cbn.
  case_bool_decide as Hnone; [split; [split|]; discriminate|].
  destruct (bool_decide (selection_mode (menu_config st) = "selected")
            && no_selection (menu_config st)); [split; [split|]; discriminate|].
  case_bool_decide as Hempty; [contradiction|]. tauto.
Qed.

Lemma menu_guard_is_validation_witness :
  let st := mkMenuState (set_selection_mode "all" default_config) NoFile in
  validate_configuration (menu_config st) "0xabc" = true ∧
  menu_step st Choice1 = StartMonitoring st ∧
  start_monitoring_config (menu_config st) = menu_config st.
Proof.
  cbv zeta.
  destruct (menu_guard_is_validation
              (mkMenuState (set_selection_mode "all" default_config) NoFile) "0xabc")
    as [Hguard Hkeep]; [discriminate|].
  assert (Hvalid : validate_configuration
                     (menu_config
                        (mkMenuState (set_selection_mode "all" default_config) NoFile))
                     "0xabc" = true) by reflexivity.
  split; [exact Hvalid|]. split; [apply Hguard, Hvalid | apply Hkeep, Hvalid].
Defined.
